(** * GermanTextLevel: vocabulary-tier classification, leveled-text rendering
    and the translation cache of [app.py], embedded shallowly.

    Python [str] values are modelled by [string] (the UTF-8 bytes of the text),
    [dict] by [gmap] or, where insertion order is observable, by an association
    list, [set] by [gset].  Logging and Streamlit notifications have no effect
    on any value computed here and are left out. *)

From Stdlib Require Import String Ascii List Bool Arith Lia.
From stdpp Require Import gmap strings list.

Local Open Scope string_scope.
Local Open Scope list_scope.

(** ** Python built-ins on [str] *)

(** [str.lower], [str.upper], [str.strip] and the slice [s[:n]] follow the
    Unicode tables of the interpreter; the code is embedded over any
    implementation of them. *)
Class PyStr := {
  lower : string -> string;
  upper : string -> string;
  strip : string -> string;
  take_chars : nat -> string -> string
}.

(** The facts about the built-ins that the index lemmas rely on: trimming is
    idempotent, a lowercased and trimmed string is left alone by [lower], and
    lowercasing neither creates nor removes whitespace at the two ends. *)
Class PyStrLaws (P : PyStr) : Prop := {
  strip_idemp : forall s, strip (strip s) = strip s;
  lower_normal : forall s, lower (strip (lower s)) = strip (lower s);
  lower_edges : forall s, strip (lower s) = lower s -> strip s = s
}.

(** [list(s)] for a set [s] of strings: the members of [s], each once, in the
    order in which the interpreter iterates over the set.  CPython derives
    that order from the hashes of the strings, which are salted anew for
    every process, so the order is a datum of the running interpreter and not
    of the program. *)
Class PySet := {
  set_list : gset string -> list string;
  set_list_elem : forall s x, x ∈ set_list s <-> x ∈ s;
  set_list_nodup : forall s, NoDup (set_list s)
}.

(** Truth value of a [str]: the empty string is falsy. *)
Definition truthy (s : string) : bool := negb (String.eqb s "").

(** [needle in hay] for two strings: the substring test. *)
Fixpoint str_in (needle hay : string) : bool :=
  String.prefix needle hay ||
  match hay with
  | EmptyString => false
  | String _ hay' => str_in needle hay'
  end.

(** [s.split('\n')]. *)
Fixpoint split_lines_aux (cur : string) (s : string) : list string :=
  match s with
  | EmptyString => [cur]
  | String c s' =>
      if Ascii.eqb c "010"%char then cur :: split_lines_aux "" s'
      else split_lines_aux (cur +:+ String c "") s'
  end.

Definition split_lines (s : string) : list string := split_lines_aux "" s.

(** [os.path.join(d, f)] on a POSIX host. *)
Definition path_join (d f : string) : string :=
  if String.prefix "/" f then f
  else if String.eqb d "" then f
  else if String.eqb (String.substring (String.length d - 1) 1 d) "/" then d +:+ f
  else d +:+ "/" +:+ f.

(** *** The ASCII fragment of the built-ins, used for concrete runs *)

Definition ascii_lower_char (c : ascii) : ascii :=
  let n := nat_of_ascii c in
  if ((65 <=? n) && (n <=? 90))%nat then ascii_of_nat (n + 32) else c.

Definition ascii_upper_char (c : ascii) : ascii :=
  let n := nat_of_ascii c in
  if ((97 <=? n) && (n <=? 122))%nat then ascii_of_nat (n - 32) else c.

(** The ASCII characters for which [str.isspace] holds. *)
Definition ascii_space (c : ascii) : bool :=
  let n := nat_of_ascii c in
  (((9 <=? n) && (n <=? 13)) || ((28 <=? n) && (n <=? 32)))%nat.

Fixpoint map_chars (f : ascii -> ascii) (s : string) : string :=
  match s with
  | EmptyString => EmptyString
  | String c s' => String (f c) (map_chars f s')
  end.

Fixpoint lstrip (s : string) : string :=
  match s with
  | EmptyString => EmptyString
  | String c s' => if ascii_space c then lstrip s' else s
  end.

Fixpoint rstrip (s : string) : string :=
  match s with
  | EmptyString => EmptyString
  | String c s' =>
      match rstrip s' with
      | EmptyString => if ascii_space c then EmptyString else String c EmptyString
      | r => String c r
      end
  end.

(** A string that does not start with a space. *)
Definition clean_head (s : string) : Prop :=
  match s with
  | EmptyString => True
  | String c _ => ascii_space c = false
  end.

Definition ascii_str : PyStr := {|
  lower := map_chars ascii_lower_char;
  upper := map_chars ascii_upper_char;
  strip := fun s => rstrip (lstrip s);
  take_chars := fun n s => String.substring 0 n s
|}.

(** Two iteration orders of a set of strings, as two interpreter processes
    may have them: the listing [elements] gives, and the same listing read
    backwards. *)
Definition elements_order : PySet := {|
  set_list := elements;
  set_list_elem := fun s x => elem_of_elements s x;
  set_list_nodup := fun s => NoDup_elements s
|}.

Definition reversed_order : PySet := {|
  set_list := fun s => reverse (elements s);
  set_list_elem := fun s x =>
    iff_trans (elem_of_reverse x (elements s)) (elem_of_elements s x);
  set_list_nodup := fun s =>
    proj2 (NoDup_Permutation_proper _ _ (reverse_Permutation (elements s)))
          (NoDup_elements s)
|}.

(** ** The analyzer *)

(** A spaCy token, restricted to the attributes the code reads. *)
Record Token := {
  text : string;
  lemma_ : string;
  pos_ : string;
  ent_type_ : string;
  is_punct : bool;
  is_space : bool;
  i : nat
}.

Definition Doc := list Token.

Record GermanLanguageAnalyzer := {
  word_levels : gmap string string;
  stopwords : gset string;
  core_words : gset string;
  nlp : string -> Doc
}.

(** *** load_word_lists *)

(** A cell of a pandas column: a string, a missing value, or a value of another
    type.  Only the first passes [pd.notna(lemma) and isinstance(lemma, str)]. *)
Inductive Cell :=
| CellStr (s : string)
| CellNaN
| CellOther.

(** A data frame: its columns in order, by header. *)
Definition DataFrame := list (string * list Cell).

(** [pd.read_csv]: [None] when reading raises. *)
Definition FileSystem := string -> option DataFrame.

Definition file_mapping : list (string * string) :=
  [("A1", "A1.csv"); ("A2", "A2.csv"); ("B1", "B1.csv"); ("B2", "B2.csv");
   ("C1", "C1_withduplicates.csv")].

Definition lemma_headers : list string :=
  ["Lemma"; "lemma"; "Word"; "word"; "German"; "german"].

Definition has_column (df : DataFrame) (col : string) : bool :=
  existsb (fun '(h, _) => String.eqb h col) df.

Definition find_lemma_col (df : DataFrame) : option string :=
  List.find (has_column df) lemma_headers.

Definition get_column (df : DataFrame) (col : string) : list Cell :=
  match List.find (fun '(h, _) => String.eqb h col) df with
  | Some (_, cells) => cells
  | None => []
  end.

(** *** is_above_level *)

Definition level_order : gmap string Z :=
  list_to_map [("A1", 1%Z); ("A2", 2%Z); ("B1", 3%Z); ("B2", 4%Z); ("C1", 5%Z)].

Definition is_above_level (word_level target_level : string) : bool :=
  match level_order !! word_level, level_order !! target_level with
  | Some w, Some t => Z.ltb t w
  | _, _ => false
  end.

Section Analyzer.
Context {P : PyStr} {O : PySet}.

(** The body of the loop over one column: a string cell is lowercased and
    trimmed, and stored under [level] unless it is empty or already a key. *)
Definition add_lemma (level : string) (wl : gmap string string) (c : Cell)
  : gmap string string :=
  match c with
  | CellStr lemma =>
      let lemma_lower := strip (lower lemma) in
      if truthy lemma_lower then
        match wl !! lemma_lower with
        | None => <[lemma_lower := level]> wl
        | Some _ => wl
        end
      else wl
  | _ => wl
  end.

(** One iteration over [file_mapping.items()]: an unreadable file, or one with
    no recognised header, contributes nothing. *)
Definition load_level (fs : FileSystem) (vocab_dir : string)
    (wl : gmap string string) (entry : string * string) : gmap string string :=
  let '(level, filename) := entry in
  match fs (path_join vocab_dir filename) with
  | None => wl
  | Some df =>
      match find_lemma_col df with
      | None => wl
      | Some lemma_col => fold_left (add_lemma level) (get_column df lemma_col) wl
      end
  end.

(** The keys one tier's file offers to the index, in the order of its rows:
    each string cell, lowercased and trimmed. *)
Definition cell_key (c : Cell) : option string :=
  match c with
  | CellStr lemma => Some (strip (lower lemma))
  | _ => None
  end.

Definition source_lemmas (fs : FileSystem) (vocab_dir filename : string)
  : list string :=
  match fs (path_join vocab_dir filename) with
  | None => []
  | Some df =>
      match find_lemma_col df with
      | None => []
      | Some lemma_col => omap cell_key (get_column df lemma_col)
      end
  end.

(** Every key of the index is its own trimmed form. *)
Definition keys_trimmed (wl : gmap string string) : Prop :=
  forall k, is_Some (wl !! k) -> strip k = k.

Definition load_word_lists (a : GermanLanguageAnalyzer) (fs : FileSystem)
    (vocab_dir : string) : GermanLanguageAnalyzer :=
  {| word_levels := fold_left (load_level fs vocab_dir) file_mapping (word_levels a);
     stopwords := stopwords a;
     core_words := core_words a;
     nlp := nlp a |}.

(** *** load_stopwords *)

(** Reading a text file line by line: the lines read, up to the end of the
    file or to the first line that cannot be decoded; [None] when the file
    cannot be opened.  In each case the loop keeps what it has added. *)
Definition TextFiles := string -> option (list string).

(** The body of the loop over the lines. *)
Definition add_stopword (sw : gset string) (line : string) : gset string :=
  let line := strip line in
  if truthy line && negb (String.prefix ";" line) then sw ∪ {[lower line]} else sw.

Definition load_stopwords (a : GermanLanguageAnalyzer) (files : TextFiles)
    (filepath : string) : GermanLanguageAnalyzer :=
  match files filepath with
  | None => a
  | Some lines =>
      {| word_levels := word_levels a;
         stopwords := fold_left add_stopword lines (stopwords a);
         core_words := core_words a;
         nlp := nlp a |}
  end.

(** *** get_word_level *)

Definition get_word_level (a : GermanLanguageAnalyzer) (lemma : string)
  : option string :=
  let lemma_lower := lower lemma in
  word_levels a !! lemma_lower.

(** The word-lookup tool of the sidebar: the typed word is lowercased and
    trimmed before it is handed to [get_word_level]. *)
Definition word_lookup (a : GermanLanguageAnalyzer) (test_word : string)
  : option string :=
  let test_lemma := strip (lower test_word) in
  get_word_level a test_lemma.

(** *** analyze_text *)

(** An entry of a [words_above_level] bucket. *)
Record WordInfo := {
  w_original : string;
  w_lemma : string;
  w_pos : string;
  w_index : nat
}.

(** An entry of [debug_info['processed_tokens']]. *)
Record ProcessedToken := {
  p_original : string;
  p_lemma : string;
  p_lemma_lower : string;
  p_pos : string
}.

Record DebugInfo := {
  processed_tokens : list ProcessedToken;
  word_levels_found : gmap string string;
  skipped_words : list string
}.

(** The local variables of [analyze_text] while the loop runs.  The
    [defaultdict(list)] keeps its keys in insertion order. *)
Record Locals := {
  l_words_above_level : list (string * list WordInfo);
  l_all_words : list (string * string);
  l_skipped_entities : gset string;
  l_debug_info : DebugInfo
}.

Definition init_locals : Locals :=
  {| l_words_above_level := [];
     l_all_words := [];
     l_skipped_entities := ∅;
     l_debug_info :=
       {| processed_tokens := []; word_levels_found := ∅; skipped_words := [] |} |}.

(** Two loop states that hold the same considered words and buckets. *)
Definition same_words (s1 s2 : Locals) : Prop :=
  l_all_words s1 = l_all_words s2 /\ l_words_above_level s1 = l_words_above_level s2.

(** [d[k].append(v)] on a [defaultdict(list)]. *)
Fixpoint bucket_append (k : string) (v : WordInfo)
    (d : list (string * list WordInfo)) : list (string * list WordInfo) :=
  match d with
  | [] => [(k, [v])]
  | (k', vs) :: d' =>
      if String.eqb k' k then (k', vs ++ [v]) :: d'
      else (k', vs) :: bucket_append k v d'
  end.

(** [token.lemma_ if token.lemma_ != "-PRON-" else token.text] *)
Definition effective_lemma (token : Token) : string :=
  if negb (String.eqb (lemma_ token) "-PRON-") then lemma_ token else text token.

Definition note_skipped (dbg : DebugInfo) (entry : string) : DebugInfo :=
  {| processed_tokens := processed_tokens dbg;
     word_levels_found := word_levels_found dbg;
     skipped_words := skipped_words dbg ++ [entry] |}.

(** One iteration of the loop [for token in doc]. *)
Definition analyze_token (a : GermanLanguageAnalyzer) (target_level : string)
    (st : Locals) (token : Token) : Locals :=
  if is_punct token || is_space token then st
  else
    let lemma := effective_lemma token in
    let lemma_lower := lower lemma in
    let dbg :=
      {| processed_tokens :=
           processed_tokens (l_debug_info st) ++
           [{| p_original := text token; p_lemma := lemma;
               p_lemma_lower := lemma_lower; p_pos := pos_ token |}];
         word_levels_found := word_levels_found (l_debug_info st);
         skipped_words := skipped_words (l_debug_info st) |} in
    if truthy (ent_type_ token) then
      {| l_words_above_level := l_words_above_level st;
         l_all_words := l_all_words st;
         l_skipped_entities := l_skipped_entities st ∪ {[text token]};
         l_debug_info := note_skipped dbg (text token +:+ " (entity)") |}
    else if bool_decide (lemma_lower ∈ stopwords a) then
      {| l_words_above_level := l_words_above_level st;
         l_all_words := l_all_words st;
         l_skipped_entities := l_skipped_entities st;
         l_debug_info := note_skipped dbg (text token +:+ " (stopword)") |}
    else if bool_decide (lemma_lower ∈ core_words a) then
      {| l_words_above_level := l_words_above_level st;
         l_all_words := l_all_words st;
         l_skipped_entities := l_skipped_entities st;
         l_debug_info := note_skipped dbg (text token +:+ " (core word)") |}
    else
      let word_level := get_word_level a lemma in
      let found :=
        match word_level with
        | Some lv =>
            if truthy lv then <[lemma := lv]> (word_levels_found dbg)
            else word_levels_found dbg
        | None => word_levels_found dbg
        end in
      let above :=
        match word_level with
        | Some lv =>
            if truthy lv && is_above_level lv target_level then
              bucket_append lv
                {| w_original := text token; w_lemma := lemma;
                   w_pos := pos_ token; w_index := i token |}
                (l_words_above_level st)
            else l_words_above_level st
        | None => l_words_above_level st
        end in
      {| l_words_above_level := above;
         l_all_words := l_all_words st ++ [(text token, lemma)];
         l_skipped_entities := l_skipped_entities st;
         l_debug_info :=
           {| processed_tokens := processed_tokens dbg;
              word_levels_found := found;
              skipped_words := skipped_words dbg |} |}.

(** The dictionary [analyze_text] returns.  [list(skipped_entities)] lists the
    set in the interpreter's iteration order, [set_list]. *)
Record Analysis := {
  words_above_level : list (string * list WordInfo);
  all_words : list (string * string);
  skipped_entities : list string;
  total_words : nat;
  doc : Doc;
  debug_info : DebugInfo
}.

(** The test [word_level and self.is_above_level(word_level, target_level)]
    that both loops make on a token's lemma. *)
Definition above_target (a : GermanLanguageAnalyzer) (target_level : string)
    (token : Token) : bool :=
  match get_word_level a (effective_lemma token) with
  | Some lv => truthy lv && is_above_level lv target_level
  | None => false
  end.

Definition analyze_doc (a : GermanLanguageAnalyzer) (d : Doc)
    (target_level : string) : Analysis :=
  let st := fold_left (analyze_token a target_level) d init_locals in
  {| words_above_level := l_words_above_level st;
     all_words := l_all_words st;
     skipped_entities := set_list (l_skipped_entities st);
     total_words := length (l_all_words st);
     doc := d;
     debug_info := l_debug_info st |}.

Definition analyze_text (a : GermanLanguageAnalyzer) (txt : string)
    (target_level : string) : Analysis :=
  let d := nlp a txt in
  analyze_doc a d target_level.

(** *** Vocabulary of the statements about analyze_text *)

(** The token reaches [all_words.append]: it is neither punctuation nor
    whitespace, has no entity tag, and its lowercased lemma is in neither
    exclusion set. *)
Definition considered (a : GermanLanguageAnalyzer) (token : Token) : bool :=
  negb (is_punct token || is_space token)
  && negb (truthy (ent_type_ token))
  && negb (bool_decide (lower (effective_lemma token) ∈ stopwords a))
  && negb (bool_decide (lower (effective_lemma token) ∈ core_words a)).

(** The dictionary appended to a bucket for a token. *)
Definition word_info (token : Token) : WordInfo :=
  {| w_original := text token; w_lemma := effective_lemma token;
     w_pos := pos_ token; w_index := i token |}.

(** The index files the token's lemma under [lv], and [lv] is above the
    target tier. *)
Definition filed_above (a : GermanLanguageAnalyzer) (target_level lv : string)
    (token : Token) : bool :=
  match get_word_level a (effective_lemma token) with
  | Some l => String.eqb l lv && truthy l && is_above_level l target_level
  | None => false
  end.

(** [d.get(lv, [])] on the buckets. *)
Definition bucket_of (lv : string) (d : list (string * list WordInfo))
  : list WordInfo :=
  match List.find (fun '(k, _) => String.eqb k lv) d with
  | Some (_, ws) => ws
  | None => []
  end.

(** What the loop keeps true of the buckets: the keys are distinct, each is
    above the target, and no bucket is empty. *)
Definition buckets_ok (target : string) (d : list (string * list WordInfo)) : Prop :=
  NoDup (map fst d)
  /\ Forall (fun '(lv, ws) => is_above_level lv target = true /\ ws <> []) d.

(** [sum(len(words) for words in analysis['words_above_level'].values())],
    the "Words Above Level" figure of the page. *)
Definition total_above (r : Analysis) : nat :=
  list_sum (map (fun '(_, words) => length words) (words_above_level r)).

End Analyzer.

(** The five tiers and their ranks, as the data model names them. *)
Inductive Tier := A1 | A2 | B1 | B2 | C1.

Definition tier_label (t : Tier) : string :=
  match t with A1 => "A1" | A2 => "A2" | B1 => "B1" | B2 => "B2" | C1 => "C1" end.

Definition rank (t : Tier) : Z :=
  match t with A1 => 1 | A2 => 2 | B1 => 3 | B2 => 4 | C1 => 5 end%Z.

Definition recognized (s : string) : Prop := exists t, s = tier_label t.

(** ** External services and the heap *)

Inductive Provider := Claude | Gemini.

(** What a prompt asks for.  The prompt text is a fixed template filled with
    these values. *)
Inductive Request :=
| SimplifyReq (txt target_level : string) (words_to_replace : list string)
| TranslateReq (word target_lang : string)
| BatchReq (words : list string) (target_lang : string).

(** A request sent to a provider, with the translation cache as it was when
    the request left. *)
Record Call := {
  provider : Provider;
  request : Request;
  cache_then : gmap string string
}.

(** The mutable state the operations below share: the cache of the
    translation service and the requests issued so far. *)
Record Heap := {
  translation_cache : gmap string string;
  calls : list Call
}.

(** An API client: the text of the reply to a request, given the requests
    issued before it; [None] when the call raises. *)
Definition Client := list Call -> Request -> option string.

Record AIService := {
  claude_client : option Client;
  gemini_client : option Client
}.

(** State passing over the heap. *)
Definition M (A : Type) : Type := Heap -> A * Heap.

Definition ret {A} (x : A) : M A := fun h => (x, h).

Definition bind {A B} (m : M A) (k : A -> M B) : M B :=
  fun h => let '(x, h') := m h in k x h'.

Notation "x <- m ;; k" := (bind m (fun x => k))
  (at level 100, m at next level, right associativity).

Definition get_cache : M (gmap string string) :=
  fun h => (translation_cache h, h).

Definition put_cache (key value : string) : M unit :=
  fun h => (tt, {| translation_cache := <[key := value]> (translation_cache h);
                   calls := calls h |}).

(** [client.messages.create(...)] or [client.models.generate_content(...)]. *)
Definition external (p : Provider) (c : Client) (r : Request) : M (option string) :=
  fun h =>
    (c (calls h) r,
     {| translation_cache := translation_cache h;
        calls := calls h ++
                 [{| provider := p; request := r; cache_then := translation_cache h |}] |}).

(** The words a request asks about. *)
Definition request_words (r : Request) : list string :=
  match r with
  | SimplifyReq _ _ _ => []
  | TranslateReq w _ => [w]
  | BatchReq ws _ => ws
  end.

Definition is_batch (r : Request) : bool :=
  match r with BatchReq _ _ => true | _ => false end.

Section Services.
Context {P : PyStr} {O : PySet}.

(** *** AIService *)

Definition simplify_text_claude (ai : AIService) (txt target_level : string)
    (words_to_replace : list string) : M string :=
  match claude_client ai with
  | None => ret txt
  | Some c =>
      r <- external Claude c (SimplifyReq txt target_level words_to_replace) ;;
      ret (match r with Some response_text => response_text | None => txt end)
  end.

Definition simplify_text_gemini (ai : AIService) (txt target_level : string)
    (words_to_replace : list string) : M string :=
  match gemini_client ai with
  | None => ret txt
  | Some c =>
      r <- external Gemini c (SimplifyReq txt target_level words_to_replace) ;;
      ret (match r with Some response_text => response_text | None => txt end)
  end.

(** *** TranslationService *)

Record TranslationService := {
  ai_service : option AIService;
  ai_model : string
}.

Definition cache_key (svc : TranslationService) (word target_lang : string) : string :=
  word +:+ "_" +:+ target_lang +:+ "_" +:+ ai_model svc.

(** [f"{word} ({target_lang[:2].upper()})"] *)
Definition mock_translation (word target_lang : string) : string :=
  word +:+ " (" +:+ upper (take_chars 2 target_lang) +:+ ")".

Definition translation_of_reply (word target_lang : string) (r : option string)
  : string :=
  match r with
  | Some response_text =>
      let translation := strip response_text in
      if truthy translation then translation else mock_translation word target_lang
  | None => word +:+ " (error)"
  end.

Definition _translate_with_claude (ai : AIService) (word target_lang : string)
  : M string :=
  match claude_client ai with
  | None => ret (word +:+ " (error)")
  | Some c =>
      r <- external Claude c (TranslateReq word target_lang) ;;
      ret (translation_of_reply word target_lang r)
  end.

Definition _translate_with_gemini (ai : AIService) (word target_lang : string)
  : M string :=
  match gemini_client ai with
  | None => ret (word +:+ " (error)")
  | Some c =>
      r <- external Gemini c (TranslateReq word target_lang) ;;
      ret (translation_of_reply word target_lang r)
  end.

Definition translate_word (svc : TranslationService) (word target_lang : string)
  : M string :=
  let key := cache_key svc word target_lang in
  cache <- get_cache ;;
  match cache !! key with
  | Some cached => ret cached
  | None =>
      match ai_service svc with
      | None => ret (mock_translation word target_lang)
      | Some ai =>
          if String.eqb (ai_model svc) "None" then
            ret (mock_translation word target_lang)
          else
            translation <-
              (if String.eqb (ai_model svc) "Claude" && bool_decide (is_Some (claude_client ai))
               then _translate_with_claude ai word target_lang
               else if String.eqb (ai_model svc) "Gemini" && bool_decide (is_Some (gemini_client ai))
               then _translate_with_gemini ai word target_lang
               else ret (mock_translation word target_lang)) ;;
            _ <- put_cache key translation ;;
            ret translation
      end
  end.

(** The loop of [_batch_translate_with_ai] over [enumerate(words)]: a word
    with a non-empty line at its position is recorded and cached. *)
Fixpoint store_lines (svc : TranslationService) (target_lang : string)
    (pairs : list (string * string)) (translations : gmap string string)
  : M (gmap string string) :=
  match pairs with
  | [] => ret translations
  | (word, line) :: rest =>
      let translation := strip line in
      if truthy translation then
        _ <- put_cache (cache_key svc word target_lang) translation ;;
        store_lines svc target_lang rest (<[word := translation]> translations)
      else store_lines svc target_lang rest translations
  end.

(** The part of [_batch_translate_with_ai] after the provider is chosen. *)
Definition batch_via (svc : TranslationService) (p : Provider) (c : Client)
    (words : list string) (target_lang : string) : M (gmap string string) :=
  r <- external p c (BatchReq words target_lang) ;;
  match r with
  | None => ret ∅
  | Some response_text =>
      let translation_lines := split_lines (strip response_text) in
      store_lines svc target_lang (zip words translation_lines) ∅
  end.

Definition _batch_translate_with_ai (svc : TranslationService) (ai : AIService)
    (words : list string) (target_lang : string) : M (gmap string string) :=
  match String.eqb (ai_model svc) "Claude", claude_client ai with
  | true, Some c => batch_via svc Claude c words target_lang
  | _, _ =>
      match String.eqb (ai_model svc) "Gemini", gemini_client ai with
      | true, Some c => batch_via svc Gemini c words target_lang
      | _, _ => ret ∅
      end
  end.

Definition uncached (svc : TranslationService) (target_lang : string)
    (cache : gmap string string) (words : list string) : list string :=
  List.filter (fun w => bool_decide (cache !! cache_key svc w target_lang = None)) words.

(** A request that asks only about words whose keys the cache did not hold
    when it was sent. *)
Definition uncached_call (svc : TranslationService) (lang : string) (c : Call) : Prop :=
  forall w, w ∈ request_words (request c) ->
            cache_then c !! cache_key svc w lang = None.

(** The loop [for word in words] at the end of [translate_batch]. *)
Fixpoint translate_rest (svc : TranslationService) (target_lang : string)
    (words : list string) (translations : gmap string string)
  : M (gmap string string) :=
  match words with
  | [] => ret translations
  | word :: rest =>
      match translations !! word with
      | Some _ => translate_rest svc target_lang rest translations
      | None =>
          t <- translate_word svc word target_lang ;;
          translate_rest svc target_lang rest (<[word := t]> translations)
      end
  end.

Definition translate_batch (svc : TranslationService) (words : list string)
    (target_lang : string) : M (gmap string string) :=
  translations <-
    match ai_service svc with
    | Some ai =>
        if negb (String.eqb (ai_model svc) "None") && (5 <? length words)%nat then
          cache <- get_cache ;;
          let uncached_words := uncached svc target_lang cache words in
          match uncached_words with
          | [] => ret ∅
          | _ => _batch_translate_with_ai svc ai uncached_words target_lang
          end
        else ret ∅
    | None => ret ∅
    end ;;
  translate_rest svc target_lang words translations.

(** *** Vocabulary of the statements about the translation cache *)

(** The first statement of [translate_batch], up to the loop over [words]. *)
Definition batch_phase (svc : TranslationService) (words : list string)
    (target_lang : string) : M (gmap string string) :=
  match ai_service svc with
  | Some ai =>
      if negb (String.eqb (ai_model svc) "None") && (5 <? length words)%nat then
        cache <- get_cache ;;
        let uncached_words := uncached svc target_lang cache words in
        match uncached_words with
        | [] => ret ∅
        | _ => _batch_translate_with_ai svc ai uncached_words target_lang
        end
      else ret ∅
  | None => ret ∅
  end.

(** A service is set and the model is not "None": the only case in which
    [translate_word] writes to the cache. *)
Definition caching (svc : TranslationService) : bool :=
  match ai_service svc with
  | Some _ => negb (String.eqb (ai_model svc) "None")
  | None => false
  end.

(** The heap still holds every entry of the cache [c0]. *)
Definition cache_keeps (c0 : gmap string string) (h : Heap) : Prop :=
  forall k v, c0 !! k = Some v -> translation_cache h !! k = Some v.

(** Every translation in [tr] is cached under its word's key. *)
Definition coherent (svc : TranslationService) (lang : string)
    (tr : gmap string string) (h : Heap) : Prop :=
  forall w v, tr !! w = Some v ->
              translation_cache h !! cache_key svc w lang = Some v.

(** The translation the parsing loop of [_batch_translate_with_ai] takes from
    position [n] of the reply's lines: the trimmed line, if there is one and
    it is not blank. *)
Definition line_at (translation_lines : list string) (n : nat) : option string :=
  match translation_lines !! n with
  | Some line => if truthy (strip line) then Some (strip line) else None
  | None => None
  end.

(** No value of the map is the empty string. *)
Definition all_truthy (m : gmap string string) : Prop :=
  forall k v, m !! k = Some v -> truthy v = true.

(** *** create_leveled_text *)

(** What the fallback loop appends for one token. *)
Definition leveled_token (a : GermanLanguageAnalyzer) (target_level : string)
    (token : Token) : string :=
  let lemma := effective_lemma token in
  match get_word_level a lemma with
  | Some lv =>
      if truthy lv && is_above_level lv target_level then "[...]" else text token
  | None => text token
  end.

(** The test that guards [result += " "]. *)
Definition space_before (tokens : list string) (n : nat) (token : string) : bool :=
  (0 <? n)%nat && negb (str_in token ".,;:!?") &&
  negb (String.eqb (nth (n - 1) tokens "") "[...]").

(** The loop that rebuilds the text from [tokens]. *)
Definition reconstruct (tokens : list string) : string :=
  fold_left
    (fun result '(n, token) =>
       (if space_before tokens n token then result +:+ " " else result) +:+ token)
    (zip (seq 0 (length tokens)) tokens) "".

(** The same text built token by token from the left, each token looking at
    its predecessor only. *)
Definition gap (prev : option string) (token : string) : string :=
  match prev with
  | None => ""
  | Some p =>
      if negb (str_in token ".,;:!?") && negb (String.eqb p "[...]") then " " else ""
  end.

Fixpoint glue (prev : option string) (tokens : list string) : string :=
  match tokens with
  | [] => ""
  | token :: rest => gap prev token +:+ token +:+ glue (Some token) rest
  end.

(** A token that is neither part of the punctuation string nor the
    placeholder. *)
Definition plain_word (token : string) : Prop :=
  str_in token ".,;:!?" = false /\ token <> "[...]".

(** The part of [create_leveled_text] below the comment [# Fallback]. *)
Definition fallback_text (a : GermanLanguageAnalyzer) (txt target_level : string)
    (analysis : Analysis) : string :=
  match doc analysis with
  | [] => txt
  | d => reconstruct (map (leveled_token a target_level) d)
  end.

Definition words_to_replace_of (analysis : Analysis) : list string :=
  concat (map (fun '(_, level_words) => map w_lemma level_words)
              (words_above_level analysis)).

Definition create_leveled_text (a : GermanLanguageAnalyzer) (txt target_level : string)
    (ai : option AIService) (model : option string) : M string :=
  let analysis := analyze_text a txt target_level in
  let words_to_replace := words_to_replace_of analysis in
  let fallback := ret (fallback_text a txt target_level analysis) in
  match ai, model with
  | Some ai_service, Some ai_model =>
      if truthy ai_model && negb (bool_decide (words_to_replace = [])) then
        if String.eqb ai_model "Claude" && bool_decide (is_Some (claude_client ai_service))
        then simplify_text_claude ai_service txt target_level words_to_replace
        else if String.eqb ai_model "Gemini" && bool_decide (is_Some (gemini_client ai_service))
        then simplify_text_gemini ai_service txt target_level words_to_replace
        else fallback
      else fallback
  | _, _ => fallback
  end.

(** *** create_word_lists *)

(** A row of the returned data frame. *)
Record WordRow := {
  german_word : string;
  row_lemma : string;
  part_of_speech : string;
  row_level : string;
  translation : string
}.

Definition level_rows (svc : TranslationService) (target_language : string)
    (translations : gmap string string) (level : string)
  : list WordInfo -> M (list WordRow) :=
  fix go (words : list WordInfo) : M (list WordRow) :=
    match words with
    | [] => ret []
    | word_info :: rest =>
        let lemma := w_lemma word_info in
        single <- translate_word svc lemma target_language ;;
        let tr := default single (translations !! lemma) in
        rows <- go rest ;;
        ret ({| german_word := w_original word_info; row_lemma := lemma;
                part_of_speech := w_pos word_info; row_level := level;
                translation := tr |} :: rows)
    end.

Fixpoint all_rows (svc : TranslationService) (target_language : string)
    (translations : gmap string string) (buckets : list (string * list WordInfo))
  : M (list WordRow) :=
  match buckets with
  | [] => ret []
  | (level, words) :: rest =>
      rows <- level_rows svc target_language translations level words ;;
      more <- all_rows svc target_language translations rest ;;
      ret (rows ++ more)
  end.

(** The columns of a row other than the translation. *)
Definition row_entry (r : WordRow) : string * string * string * string :=
  (german_word r, row_lemma r, part_of_speech r, row_level r).

(** The same four values for the entries of the buckets, bucket by bucket. *)
Definition bucket_entries (buckets : list (string * list WordInfo))
  : list (string * string * string * string) :=
  concat (map (fun '(level, words) =>
                 map (fun w => (w_original w, w_lemma w, w_pos w, level)) words)
              buckets).

(** The translation service is created inside the call, with an empty cache
    of its own; the caller's heap keeps its cache and gains the requests. *)
Definition create_word_lists (a : GermanLanguageAnalyzer)
    (analysis_results : Analysis) (target_language : string)
    (ai : option AIService) (model : string) : M (list WordRow) :=
  fun h =>
    let translation_service := {| ai_service := ai; ai_model := model |} in
    let all_words_to_translate := words_to_replace_of analysis_results in
    let body :=
      translations <-
        (match all_words_to_translate with
         | [] => ret ∅
         | _ => translate_batch translation_service all_words_to_translate target_language
         end) ;;
      all_rows translation_service target_language translations
               (words_above_level analysis_results) in
    let '(rows, h') := body {| translation_cache := ∅; calls := calls h |} in
    (rows, {| translation_cache := translation_cache h; calls := calls h' |}).

End Services.

(** ** Concrete data for the examples *)

(** The analyzer as [__init__] leaves it, over a given tokenizer. *)
Definition init_analyzer (tokenizer : string -> Doc) : GermanLanguageAnalyzer :=
  {| word_levels := ∅; stopwords := ∅; core_words := ∅; nlp := tokenizer |}.

(** A vocabulary directory with three readable files; "wetter" is listed
    under B1 and again under C1, "haus" under A1 and again under B1. *)
Definition demo_fs : FileSystem := fun path =>
  if String.eqb path "vocabulary/A1.csv" then
    Some [("Lemma", [CellStr "Haus"; CellNaN; CellStr "  "])]
  else if String.eqb path "vocabulary/B1.csv" then
    Some [("id", [CellOther; CellOther]); ("word", [CellStr "Wetter"; CellStr "haus"])]
  else if String.eqb path "vocabulary/C1_withduplicates.csv" then
    Some [("Lemma", [CellStr " wetter "; CellStr "Wetter"])]
  else None.

Definition demo_analyzer : GermanLanguageAnalyzer :=
  load_word_lists (P := ascii_str) (init_analyzer (fun _ => [])) demo_fs "vocabulary".

(** A tagged token with the given surface, lemma, entity tag and position. *)
Definition word_token (surface lemma ent : string) (n : nat) : Token :=
  {| text := surface; lemma_ := lemma; pos_ := "X"; ent_type_ := ent;
     is_punct := false; is_space := false; i := n |}.

Definition punct_token (surface : string) (n : nat) : Token :=
  {| text := surface; lemma_ := surface; pos_ := "PUNCT"; ent_type_ := "";
     is_punct := true; is_space := false; i := n |}.

(** "Die Bahn kommt .", with "Die Bahn" tagged as an organisation. *)
Definition bahn_doc : Doc :=
  [word_token "Die" "der" "ORG" 0; word_token "Bahn" "Bahn" "ORG" 1;
   word_token "kommt" "kommen" "" 2; punct_token "." 3].

Definition bahn_analyzer (tokenizer : string -> Doc) : GermanLanguageAnalyzer :=
  {| word_levels := {[ "bahn" := "A2"; "kommen" := "A1" ]};
     stopwords := {[ "der" ]};
     core_words := {[ "der"; "die"; "das" ]};
     nlp := tokenizer |}.

(** "Das außergewöhnliche Wetter.", with "außergewöhnlich" listed under C1. *)
Definition wetter_doc : Doc :=
  [word_token "Das" "der" "" 0;
   word_token "außergewöhnliche" "außergewöhnlich" "" 1;
   word_token "Wetter" "Wetter" "" 2; punct_token "." 3].

Definition wetter_analyzer : GermanLanguageAnalyzer :=
  {| word_levels := {[ "außergewöhnlich" := "C1"; "wetter" := "A1" ]};
     stopwords := ∅;
     core_words := {[ "der"; "die"; "das" ]};
     nlp := fun _ => wetter_doc |}.

(** "Obwohl es regnet": the stopword "obwohl" is also listed under B1. *)
Definition obwohl_doc : Doc :=
  [word_token "Obwohl" "obwohl" "" 0; word_token "es" "es" "" 1;
   word_token "regnet" "regnen" "" 2].

Definition obwohl_analyzer : GermanLanguageAnalyzer :=
  {| word_levels := {[ "obwohl" := "B1"; "regnen" := "A1" ]};
     stopwords := {[ "obwohl" ]};
     core_words := {[ "es" ]};
     nlp := fun _ => obwohl_doc |}.

Definition empty_heap : Heap := {| translation_cache := ∅; calls := [] |}.

(** A client whose every call raises, and a service that holds it. *)
Definition failing_client : Client := fun _ _ => None.

Definition failing_claude : AIService :=
  {| claude_client := Some failing_client; gemini_client := None |}.

(** A client that answers every request with the one line "Haus". *)
Definition haus_client : Client := fun _ _ => Some "Haus".

Definition claude_service : TranslationService :=
  {| ai_service := Some {| claude_client := Some haus_client; gemini_client := None |};
     ai_model := "Claude" |}.

(** Six words, the first five already translated for English by Claude. *)
Definition six_words : list string := ["a"; "b"; "c"; "d"; "e"; "f"].

Definition warm_heap : Heap :=
  {| translation_cache :=
       list_to_map [("a_English_Claude", "A"); ("b_English_Claude", "B");
                    ("c_English_Claude", "C"); ("d_English_Claude", "D");
                    ("e_English_Claude", "E")];
     calls := [] |}.

(** A stopword file with a comment, a capitalised word and a blank line. *)
Definition demo_files : TextFiles := fun path =>
  if String.eqb path "german_stopwords_plain.txt" then
    Some ["; a comment"; " Und "; ""]
  else None.

(** A client that answers every request with the two lines "house", "tree". *)
Definition two_lines_client : Client :=
  fun _ _ => Some ("house" +:+ String "010"%char "tree").

Definition two_lines_ai : AIService :=
  {| claude_client := Some two_lines_client; gemini_client := None |}.

Definition two_lines_service : TranslationService :=
  {| ai_service := Some two_lines_ai; ai_model := "Claude" |}.

(** The translation service of a page on which no model is chosen. *)
Definition offline_service : TranslationService :=
  {| ai_service := None; ai_model := "None" |}.

(** * Theorems *)

(** Closes the cases of [translate_batch] in which no batched request leaves. *)
Ltac no_batch_sent :=
  exists []; simpl; split; [by rewrite app_nil_r|]; split; [constructor|by left].


Lemma level_order_label (t : Tier) : level_order !! tier_label t = Some (rank t).
Proof. destruct t; reflexivity. Qed.

Lemma level_order_unrecognized (s : string) :
  ~ recognized s -> level_order !! s = None.
Proof.
  intros Hs. unfold level_order. simpl.
  repeat (rewrite lookup_insert_ne;
          [| intros <-; apply Hs;
             first [ by exists A1 | by exists A2 | by exists B1 | by exists B2 | by exists C1 ] ]).
  apply lookup_empty.
Qed.

(** ** is_above_level *)

(** C4: on two tier labels [is_above_level] is the comparison of their ranks,
    and it answers [false] as soon as one argument is not a tier label; being
    a function into [bool], it has no failing case. *)
Theorem is_above_level_rank :
  (forall t1 t2 : Tier,
      is_above_level (tier_label t1) (tier_label t2) = true <-> (rank t1 > rank t2)%Z)
  /\ (forall w t : string,
         ~ recognized w \/ ~ recognized t -> is_above_level w t = false).
Proof.
  split.
  - intros t1 t2. unfold is_above_level.
    rewrite !level_order_label. rewrite Z.ltb_lt. lia.
  - intros w t [Hw | Ht]; unfold is_above_level.
    + by rewrite (level_order_unrecognized w Hw).
    + rewrite (level_order_unrecognized t Ht). by destruct (level_order !! w).
Qed.

(** ** The vocabulary index *)

Section IndexFacts.
Context {P : PyStr}.

Lemma add_lemma_keep level wl c k v :
  wl !! k = Some v -> add_lemma level wl c !! k = Some v.
Proof.
  intros Hk. destruct c as [x| |]; simpl; try done.
  destruct (truthy _); [|done].
  destruct (wl !! strip (lower x)) eqn:Hx; [done|].
  rewrite lookup_insert_ne; [done|]. congruence.
Qed.

Lemma add_lemma_miss level wl c k :
  wl !! k = None -> cell_key c <> Some k -> add_lemma level wl c !! k = None.
Proof.
  intros Hk Hc. destruct c as [x| |]; simpl in *; try done.
  destruct (truthy _); [|done].
  destruct (wl !! strip (lower x)); [done|].
  rewrite lookup_insert_ne; [done|]. congruence.
Qed.

Lemma add_lemma_new level wl c k :
  wl !! k = None -> cell_key c = Some k -> k <> "" ->
  add_lemma level wl c !! k = Some level.
Proof.
  intros Hk Hc Hne. destruct c as [x| |]; try done.
  injection Hc as <-. unfold add_lemma.
  assert (truthy (strip (lower x)) = true) as ->.
  { unfold truthy. apply negb_true_iff, String.eqb_neq. done. }
  rewrite Hk. apply lookup_insert_eq.
Qed.

(** A cell whose key the index already holds leaves the index as it is. *)
Lemma add_lemma_duplicate level wl x :
  is_Some (wl !! strip (lower x)) -> add_lemma level wl (CellStr x) = wl.
Proof.
  intros [v Hv]. simpl. rewrite Hv. by destruct (truthy _).
Qed.

Lemma column_keep level cells : forall wl k v,
  wl !! k = Some v -> fold_left (add_lemma level) cells wl !! k = Some v.
Proof.
  induction cells as [|c cells IH]; intros wl k v Hk; simpl; [done|].
  apply IH. by apply add_lemma_keep.
Qed.

Lemma column_miss level cells : forall wl k,
  wl !! k = None -> k ∉ omap cell_key cells ->
  fold_left (add_lemma level) cells wl !! k = None.
Proof.
  induction cells as [|c cells IH]; intros wl k Hk Hnot; simpl; [done|].
  simpl in Hnot. apply IH.
  - apply add_lemma_miss; [done|]. intros Hc. rewrite Hc in Hnot.
    apply Hnot. apply list_elem_of_here.
  - destruct (cell_key c); [|done]. by apply not_elem_of_cons in Hnot as [_ ?].
Qed.

Lemma column_new level cells : forall wl k,
  wl !! k = None -> k ∈ omap cell_key cells -> k <> "" ->
  fold_left (add_lemma level) cells wl !! k = Some level.
Proof.
  induction cells as [|c cells IH]; intros wl k Hk Hin Hne; simpl in *.
  { by apply elem_of_nil in Hin. }
  destruct (decide (cell_key c = Some k)) as [Hc|Hc].
  - apply column_keep. by apply add_lemma_new.
  - apply IH; [by apply add_lemma_miss| |done].
    destruct (cell_key c) as [k'|]; [|done].
    apply elem_of_cons in Hin as [->|?]; [congruence|done].
Qed.

Lemma load_level_keep fs dir entry wl k v :
  wl !! k = Some v -> load_level fs dir wl entry !! k = Some v.
Proof.
  intros Hk. destruct entry as [level file]. unfold load_level.
  destruct (fs _) as [df|]; [|done].
  destruct (find_lemma_col df); [|done]. by apply column_keep.
Qed.

Lemma load_level_miss fs dir level file wl k :
  wl !! k = None -> k ∉ source_lemmas fs dir file ->
  load_level fs dir wl (level, file) !! k = None.
Proof.
  intros Hk Hnot. unfold load_level, source_lemmas in *.
  destruct (fs _) as [df|]; [|done].
  destruct (find_lemma_col df); [|done]. by apply column_miss.
Qed.

Lemma load_level_new fs dir level file wl k :
  wl !! k = None -> k ∈ source_lemmas fs dir file -> k <> "" ->
  load_level fs dir wl (level, file) !! k = Some level.
Proof.
  intros Hk Hin Hne. unfold load_level, source_lemmas in *.
  destruct (fs _) as [df|]; [|by apply elem_of_nil in Hin].
  destruct (find_lemma_col df); [|by apply elem_of_nil in Hin].
  by apply column_new.
Qed.

Lemma levels_keep fs dir entries : forall wl k v,
  wl !! k = Some v -> fold_left (load_level fs dir) entries wl !! k = Some v.
Proof.
  induction entries as [|e entries IH]; intros wl k v Hk; simpl; [done|].
  apply IH. by apply load_level_keep.
Qed.

Lemma levels_miss fs dir entries : forall wl k,
  wl !! k = None ->
  (forall level file, (level, file) ∈ entries -> k ∉ source_lemmas fs dir file) ->
  fold_left (load_level fs dir) entries wl !! k = None.
Proof.
  induction entries as [|[level file] entries IH]; intros wl k Hk Hnot; simpl; [done|].
  apply IH.
  - apply load_level_miss; [done|]. eapply Hnot. apply list_elem_of_here.
  - intros lv f Hin. eapply Hnot. apply list_elem_of_further, Hin.
Qed.

End IndexFacts.

Section IndexLaws.
Context {P : PyStr} {L : PyStrLaws P}.

Lemma source_lemma_normal fs dir file k :
  k ∈ source_lemmas fs dir file -> lower k = k /\ strip k = k.
Proof.
  unfold source_lemmas. intros Hin.
  destruct (fs _) as [df|]; [|by apply elem_of_nil in Hin].
  destruct (find_lemma_col df); [|by apply elem_of_nil in Hin].
  apply list_elem_of_omap in Hin as (c & _ & Hc).
  destruct c as [x| |]; simpl in Hc; try discriminate.
  injection Hc as <-. split; [apply lower_normal | apply strip_idemp].
Qed.

Lemma add_lemma_trimmed level wl c :
  keys_trimmed wl -> keys_trimmed (add_lemma level wl c).
Proof.
  intros Hwl. destruct c as [x| |]; try done. unfold add_lemma.
  destruct (truthy _); [|done].
  destruct (wl !! strip (lower x)) eqn:Hx; [done|].
  intros k. destruct (decide (k = strip (lower x))) as [->|Hne].
  - intros _. apply strip_idemp.
  - rewrite lookup_insert_ne; [apply Hwl | congruence].
Qed.

Lemma column_trimmed level cells : forall wl,
  keys_trimmed wl -> keys_trimmed (fold_left (add_lemma level) cells wl).
Proof.
  induction cells as [|c cells IH]; intros wl Hwl; simpl; [done|].
  by apply IH, add_lemma_trimmed.
Qed.

Lemma load_level_trimmed fs dir entry wl :
  keys_trimmed wl -> keys_trimmed (load_level fs dir wl entry).
Proof.
  intros Hwl. destruct entry as [level file]. unfold load_level.
  destruct (fs _) as [df|]; [|done].
  destruct (find_lemma_col df); [|done]. by apply column_trimmed.
Qed.

Lemma levels_trimmed fs dir entries : forall wl,
  keys_trimmed wl -> keys_trimmed (fold_left (load_level fs dir) entries wl).
Proof.
  induction entries as [|e entries IH]; intros wl Hwl; simpl; [done|].
  by apply IH, load_level_trimmed.
Qed.

(** C2: a non-empty lemma (lowercased and trimmed) is indexed under the tier
    of the first of the five lists that holds it, whatever the later lists
    hold; [get_word_level] returns that tier for it and for every string that
    lowercases to it; and a cell whose key is already in the index leaves the
    index unchanged. *)
Theorem first_tier_wins (a : GermanLanguageAnalyzer) (fs : FileSystem)
    (vocab_dir : string) (n : nat) (level filename k : string) :
  word_levels a = ∅ ->
  file_mapping !! n = Some (level, filename) ->
  k <> "" ->
  k ∈ source_lemmas fs vocab_dir filename ->
  (forall m lv f, m < n -> file_mapping !! m = Some (lv, f) ->
                  k ∉ source_lemmas fs vocab_dir f) ->
  word_levels (load_word_lists a fs vocab_dir) !! k = Some level
  /\ get_word_level (load_word_lists a fs vocab_dir) k = Some level
  /\ (forall x, lower x = k ->
                get_word_level (load_word_lists a fs vocab_dir) x = Some level)
  /\ (forall lv wl x, is_Some (wl !! strip (lower x)) ->
                      add_lemma lv wl (CellStr x) = wl).
Proof.
  intros Hempty Hn Hne Hin Hfirst.
  assert (word_levels (load_word_lists a fs vocab_dir) !! k = Some level) as Hk.
  { change (word_levels (load_word_lists a fs vocab_dir))
      with (fold_left (load_level fs vocab_dir) file_mapping (word_levels a)).
    rewrite Hempty.
    rewrite <- (take_drop_middle _ _ _ Hn), fold_left_app.
    change (fold_left ?f (?e :: ?l) ?x) with (fold_left f l (f x e)).
    apply levels_keep, load_level_new; [|done|done].
    apply levels_miss; [apply lookup_empty|].
    intros lv f Hlf. apply list_elem_of_lookup in Hlf as [m Hm].
    apply lookup_take_Some in Hm as [Hm Hlt]. by eapply Hfirst. }
  split; [done|]. split; [|split].
  - unfold get_word_level.
    destruct (source_lemma_normal _ _ _ _ Hin) as [-> _]. done.
  - intros x Hx. unfold get_word_level. by rewrite Hx.
  - intros lv wl x. apply add_lemma_duplicate.
Qed.

(** C10: the index is keyed by lowercased and trimmed lemmas, while
    [get_word_level] only lowercases; a lemma with whitespace at either end is
    therefore never found in the built index. *)
Theorem untrimmed_lookup_misses (a : GermanLanguageAnalyzer) (fs : FileSystem)
    (vocab_dir lemma : string) :
  word_levels a = ∅ ->
  strip lemma <> lemma ->
  get_word_level (load_word_lists a fs vocab_dir) lemma = None.
Proof.
  intros Hempty Hws. unfold get_word_level.
  change (word_levels (load_word_lists a fs vocab_dir))
    with (fold_left (load_level fs vocab_dir) file_mapping (word_levels a)).
  rewrite Hempty.
  destruct (fold_left _ _ _ !! lower lemma) eqn:Hl; [|done].
  exfalso. apply Hws, lower_edges.
  eapply (levels_trimmed fs vocab_dir file_mapping ∅); [|by rewrite Hl].
  intros k [v Hv]. by rewrite lookup_empty in Hv.
Qed.

End IndexLaws.

(** ** The ASCII built-ins satisfy the laws *)

Lemma ascii_space_lower c : ascii_space (ascii_lower_char c) = ascii_space c.
Proof. destruct c as [[] [] [] [] [] [] [] []]; reflexivity. Qed.

Lemma ascii_lower_char_idemp c :
  ascii_lower_char (ascii_lower_char c) = ascii_lower_char c.
Proof. destruct c as [[] [] [] [] [] [] [] []]; reflexivity. Qed.

Lemma map_lower_idemp s :
  map_chars ascii_lower_char (map_chars ascii_lower_char s) = map_chars ascii_lower_char s.
Proof. induction s as [|c s IH]; simpl; [done|]. by rewrite ascii_lower_char_idemp, IH. Qed.

Lemma map_chars_length f s : String.length (map_chars f s) = String.length s.
Proof. induction s as [|c s IH]; simpl; [done|]. by rewrite IH. Qed.

Lemma lstrip_lower s :
  lstrip (map_chars ascii_lower_char s) = map_chars ascii_lower_char (lstrip s).
Proof.
  induction s as [|c s IH]; simpl; [done|].
  rewrite ascii_space_lower. by destruct (ascii_space c).
Qed.

Lemma rstrip_lower s :
  rstrip (map_chars ascii_lower_char s) = map_chars ascii_lower_char (rstrip s).
Proof.
  induction s as [|c s IH]; simpl; [done|].
  rewrite IH, ascii_space_lower.
  destruct (rstrip s); simpl; [by destruct (ascii_space c)|done].
Qed.

Lemma lstrip_length s : String.length (lstrip s) <= String.length s.
Proof.
  induction s as [|c s IH]; simpl; [done|].
  destruct (ascii_space c); simpl; lia.
Qed.

Lemma lstrip_full s : String.length (lstrip s) = String.length s -> lstrip s = s.
Proof.
  destruct s as [|c s]; simpl; [done|].
  destruct (ascii_space c); [|done].
  pose proof (lstrip_length s). lia.
Qed.

Lemma rstrip_length s : String.length (rstrip s) <= String.length s.
Proof.
  induction s as [|c s IH]; simpl; [done|].
  destruct (rstrip s); [destruct (ascii_space c)|]; simpl in *; lia.
Qed.

Lemma rstrip_full s : String.length (rstrip s) = String.length s -> rstrip s = s.
Proof.
  induction s as [|c s IH]; simpl; [done|].
  pose proof (rstrip_length s) as Hle.
  destruct (rstrip s) as [|c' r] eqn:Hr.
  - destruct (ascii_space c); simpl; [lia|].
    intros Hlen. destruct s; [done|simpl in Hlen; lia].
  - simpl in *. intros Hlen. rewrite IH; [done|lia].
Qed.

Lemma rstrip_idemp s : rstrip (rstrip s) = rstrip s.
Proof.
  induction s as [|c s IH]; simpl; [done|].
  destruct (rstrip s) as [|c' r] eqn:Hr.
  - destruct (ascii_space c) eqn:Hc; simpl; [done|]. by rewrite Hc.
  - change (rstrip (String c (String c' r)))
      with (match rstrip (String c' r) with
            | EmptyString => if ascii_space c then EmptyString else String c EmptyString
            | String c0 r0 => String c (String c0 r0)
            end).
    by rewrite IH.
Qed.

Lemma lstrip_clean s : clean_head (lstrip s).
Proof.
  induction s as [|c s IH]; simpl; [done|].
  destruct (ascii_space c) eqn:Hc; [done|]. simpl. done.
Qed.

Lemma rstrip_clean s : clean_head s -> clean_head (rstrip s).
Proof.
  destruct s as [|c s]; simpl; [done|]. intros Hc.
  destruct (rstrip s); [rewrite Hc|]; done.
Qed.

Lemma lstrip_of_clean s : clean_head s -> lstrip s = s.
Proof. destruct s as [|c s]; simpl; [done|]. by intros ->. Qed.

Lemma ascii_str_laws : PyStrLaws ascii_str.
Proof.
  split; simpl.
  - intros s. rewrite lstrip_of_clean.
    + apply rstrip_idemp.
    + apply rstrip_clean, lstrip_clean.
  - intros s. by rewrite <- rstrip_lower, <- lstrip_lower, map_lower_idemp.
  - intros s. rewrite lstrip_lower, rstrip_lower. intros Heq.
    apply (f_equal String.length) in Heq. rewrite !map_chars_length in Heq.
    pose proof (rstrip_length (lstrip s)). pose proof (lstrip_length s).
    rewrite (lstrip_full s) by lia.
    apply rstrip_full. rewrite (lstrip_full s) in Heq by lia. done.
Qed.

(** ** Runs of the index on the demo directory *)

Section IndexRuns.
#[local] Existing Instance ascii_str.
#[local] Existing Instance ascii_str_laws.

(** "wetter" is first listed under B1 (the third file) and again under C1. *)
Lemma first_tier_wins_witness :
  word_levels demo_analyzer !! "wetter" = Some "B1"
  /\ get_word_level demo_analyzer "wetter" = Some "B1"
  /\ get_word_level demo_analyzer "WETTER" = Some "B1".
Proof.
  destruct (first_tier_wins (init_analyzer (fun _ => []))
              demo_fs "vocabulary" 2 "B1" "B1.csv" "wetter")
    as (Hindex & Hlookup & Hraw & _).
  - reflexivity.
  - reflexivity.
  - discriminate.
  - apply (bool_decide_unpack _). vm_compute. exact I.
  - intros m lv f Hm Hf.
    destruct m as [|[|m]]; [| |lia]; injection Hf as <- <-;
      apply (bool_decide_unpack _); vm_compute; exact I.
  - split; [exact Hindex|]. split; [exact Hlookup|]. apply Hraw. reflexivity.
Defined.

(** " Wetter" is not found although "wetter" is a key of the index. *)
Lemma untrimmed_lookup_misses_witness :
  get_word_level demo_analyzer " Wetter" = None
  /\ word_levels demo_analyzer !! strip (lower " Wetter") = Some "B1".
Proof.
  split.
  - apply (untrimmed_lookup_misses (init_analyzer (fun _ => []))
             demo_fs "vocabulary" " Wetter").
    + reflexivity.
    + vm_compute. discriminate.
  - vm_compute. reflexivity.
Defined.

End IndexRuns.

(** ** analyze_text *)

Section AnalysisFacts.
Context {P : PyStr} {O : PySet}.

Lemma analyze_token_same_words a target s1 s2 token :
  same_words s1 s2 ->
  same_words (analyze_token a target s1 token) (analyze_token a target s2 token).
Proof.
  intros [Hw Hb]. unfold analyze_token, same_words.
  destruct (is_punct token || is_space token); [done|].
  destruct (truthy (ent_type_ token)); [done|].
  destruct (bool_decide _); [done|].
  destruct (bool_decide _); [done|].
  simpl. rewrite Hw, Hb. done.
Qed.

Lemma analyze_tokens_same_words a target d : forall s1 s2,
  same_words s1 s2 ->
  same_words (fold_left (analyze_token a target) d s1)
             (fold_left (analyze_token a target) d s2).
Proof.
  induction d as [|token d IH]; intros s1 s2 Hs; simpl; [done|].
  by apply IH, analyze_token_same_words.
Qed.

(** A token whose iteration leaves the considered words and the buckets alone
    could as well be absent from the document. *)
Lemma skipped_token_absent a target pre post token :
  (forall st, same_words (analyze_token a target st token) st) ->
  all_words (analyze_doc a (pre ++ token :: post) target)
    = all_words (analyze_doc a (pre ++ post) target)
  /\ words_above_level (analyze_doc a (pre ++ token :: post) target)
    = words_above_level (analyze_doc a (pre ++ post) target)
  /\ total_words (analyze_doc a (pre ++ token :: post) target)
    = total_words (analyze_doc a (pre ++ post) target).
Proof.
  intros Hskip. unfold analyze_doc. cbn [all_words words_above_level total_words].
  rewrite !fold_left_app.
  change (fold_left ?f (token :: post) ?x) with (fold_left f post (f x token)).
  destruct (analyze_tokens_same_words a target post _ _
              (Hskip (fold_left (analyze_token a target) pre init_locals)))
    as [Hw Hb].
  rewrite Hw, Hb. done.
Qed.

Lemma skipped_entities_grow a target d : forall st x,
  x ∈ l_skipped_entities st ->
  x ∈ l_skipped_entities (fold_left (analyze_token a target) d st).
Proof.
  induction d as [|token d IH]; intros st x Hx; simpl; [done|].
  apply IH. unfold analyze_token.
  destruct (is_punct token || is_space token); [done|].
  destruct (truthy (ent_type_ token)); [simpl; by apply elem_of_union_l|].
  destruct (bool_decide _); [done|].
  destruct (bool_decide _); done.
Qed.

(** C3: a token with a named-entity tag is handled by the entity rule alone,
    also when its lemma is a stopword or a core word: its iteration adds no
    considered word and no bucket entry and notes it as "(entity)", never as
    "(stopword)" or "(core word)"; the considered words, the buckets and the
    count of the whole analysis are those of the document without the token;
    and, unless the token is punctuation or whitespace (which the loop drops
    before any rule), its surface form is among the skipped entities. *)
Theorem entity_skip_precedence (a : GermanLanguageAnalyzer) (target : string)
    (pre post : Doc) (token : Token) :
  ent_type_ token <> "" ->
  (forall st,
      l_all_words (analyze_token a target st token) = l_all_words st
      /\ l_words_above_level (analyze_token a target st token) = l_words_above_level st
      /\ skipped_words (l_debug_info (analyze_token a target st token))
         = skipped_words (l_debug_info st) ++
           (if is_punct token || is_space token then []
            else [text token +:+ " (entity)"]))
  /\ all_words (analyze_doc a (pre ++ token :: post) target)
     = all_words (analyze_doc a (pre ++ post) target)
  /\ words_above_level (analyze_doc a (pre ++ token :: post) target)
     = words_above_level (analyze_doc a (pre ++ post) target)
  /\ total_words (analyze_doc a (pre ++ token :: post) target)
     = total_words (analyze_doc a (pre ++ post) target)
  /\ (is_punct token || is_space token = false ->
      text token ∈ skipped_entities (analyze_doc a (pre ++ token :: post) target)).
Proof.
  intros Hent.
  assert (truthy (ent_type_ token) = true) as Htag.
  { unfold truthy. by apply negb_true_iff, String.eqb_neq. }
  assert (forall st,
      l_all_words (analyze_token a target st token) = l_all_words st
      /\ l_words_above_level (analyze_token a target st token) = l_words_above_level st
      /\ skipped_words (l_debug_info (analyze_token a target st token))
         = skipped_words (l_debug_info st) ++
           (if is_punct token || is_space token then []
            else [text token +:+ " (entity)"])) as Hstep.
  { intros st. unfold analyze_token.
    destruct (is_punct token || is_space token).
    - by rewrite app_nil_r.
    - rewrite Htag. done. }
  split; [exact Hstep|].
  destruct (skipped_token_absent a target pre post token) as (Hw & Hb & Hn).
  { intros st. destruct (Hstep st) as (? & ? & _). by split. }
  repeat split; try done.
  intros Hreal. unfold analyze_doc. cbn [skipped_entities].
  apply set_list_elem. rewrite fold_left_app.
  change (fold_left ?f (token :: post) ?x) with (fold_left f post (f x token)).
  apply skipped_entities_grow. unfold analyze_token.
  rewrite Hreal, Htag. simpl. by apply elem_of_union_r, elem_of_singleton.
Qed.

(** The loop reads the analyzer through its index and its two exclusion sets
    only. *)
Lemma analyze_tokens_agree (a1 a2 : GermanLanguageAnalyzer) (target : string)
    (d : Doc) (st : Locals) :
  word_levels a1 = word_levels a2 ->
  stopwords a1 = stopwords a2 ->
  core_words a1 = core_words a2 ->
  fold_left (analyze_token a1 target) d st
  = fold_left (analyze_token a2 target) d st.
Proof.
  intros Hwl Hsw Hcw. revert st.
  induction d as [|token d IH]; intros st; simpl; [done|].
  rewrite <- IH. f_equal.
  unfold analyze_token, get_word_level. by rewrite Hwl, Hsw, Hcw.
Qed.

End AnalysisFacts.

Section SetOrder.
Context {P : PyStr}.


End SetOrder.

Section AnalysisRuns.
#[local] Existing Instance ascii_str.
#[local] Existing Instance elements_order.

(** "Die" carries an entity tag and its lemma "der" is a stopword and a core
    word: it ends among the skipped entities and nowhere else. *)
Lemma entity_skip_precedence_witness :
  lower (effective_lemma (word_token "Die" "der" "ORG" 0))
    ∈ stopwords (bahn_analyzer (fun _ => bahn_doc))
  /\ all_words (analyze_doc (bahn_analyzer (fun _ => bahn_doc)) bahn_doc "A1")
     = all_words (analyze_doc (bahn_analyzer (fun _ => bahn_doc)) (tail bahn_doc) "A1")
  /\ "Die" ∈ skipped_entities (analyze_doc (bahn_analyzer (fun _ => bahn_doc)) bahn_doc "A1")
  /\ skipped_words (debug_info (analyze_doc (bahn_analyzer (fun _ => bahn_doc)) bahn_doc "A1"))
     = ["Die (entity)"; "Bahn (entity)"].
Proof.
  destruct (entity_skip_precedence (bahn_analyzer (fun _ => bahn_doc)) "A1"
              [] (tail bahn_doc) (word_token "Die" "der" "ORG" 0))
    as (_ & Hw & _ & _ & He).
  { discriminate. }
  split; [apply (bool_decide_unpack _); vm_compute; exact I|].
  split; [exact Hw|].
  split; [exact (He eq_refl)|].
  vm_compute. reflexivity.
Defined.



End AnalysisRuns.

(** ** create_leveled_text *)

Section RenderFacts.
Context {P : PyStr} {O : PySet}.

Lemma leveled_token_above a target token :
  leveled_token a target token
  = if above_target a target token then "[...]" else text token.
Proof.
  unfold leveled_token, above_target.
  by destruct (get_word_level a (effective_lemma token)).
Qed.

Lemma analyze_text_doc a txt target : doc (analyze_text a txt target) = nlp a txt.
Proof. reflexivity. Qed.

(** Without a service the fallback is what is returned, and the heap is left
    as it was. *)
Lemma create_leveled_text_no_service a txt target model h :
  create_leveled_text a txt target None model h
  = (fallback_text a txt target (analyze_text a txt target), h).
Proof. reflexivity. Qed.

(** C1: the placeholder rendering of "Hallo", ",", "Welt", "." with no token
    above the target tier is "Hallo, Welt."; that of "Das", "außergewöhnliche",
    "Wetter", "." with the second token above it is "Das [...]Wetter.": the
    token after a placeholder gets no space before it. *)
Theorem placeholder_rendering_examples (a : GermanLanguageAnalyzer)
    (txt target : string) (model : option string) (h : Heap) :
  (map text (nlp a txt) = ["Hallo"; ","; "Welt"; "."] ->
   map (above_target a target) (nlp a txt) = [false; false; false; false] ->
   create_leveled_text a txt target None model h = ("Hallo, Welt.", h))
  /\ (map text (nlp a txt) = ["Das"; "außergewöhnliche"; "Wetter"; "."] ->
      map (above_target a target) (nlp a txt) = [false; true; false; false] ->
      create_leveled_text a txt target None model h = ("Das [...]Wetter.", h)).
Proof.
  split; intros Htext Habove; rewrite create_leveled_text_no_service;
    f_equal; unfold fallback_text; rewrite analyze_text_doc;
    destruct (nlp a txt) as [|t0 [|t1 [|t2 [|t3 [|t4 d]]]]]; try discriminate;
    simpl in Htext, Habove;
    injection Htext as H0 H1 H2 H3; injection Habove as A0 A1 A2 A3;
    cbn [map]; rewrite !leveled_token_above, A0, A1, A2, A3, ?H0, ?H1, ?H2, ?H3;
    reflexivity.
Qed.


Lemma excluded_token_skipped a target token :
  lower (effective_lemma token) ∈ stopwords a ∪ core_words a ->
  forall st, same_words (analyze_token a target st token) st.
Proof.
  intros Hex st. unfold analyze_token, same_words.
  destruct (is_punct token || is_space token); [done|].
  destruct (truthy (ent_type_ token)); [done|].
  destruct (bool_decide _) eqn:Hs; [done|].
  destruct (bool_decide (_ ∈ core_words a)) eqn:Hc; [done|].
  apply bool_decide_eq_false in Hs, Hc.
  apply elem_of_union in Hex as [?|?]; done.
Qed.

Lemma create_word_lists_buckets a r1 r2 lang ai model h :
  words_above_level r1 = words_above_level r2 ->
  create_word_lists a r1 lang ai model h = create_word_lists a r2 lang ai model h.
Proof.
  intros Hb. unfold create_word_lists, words_to_replace_of. by rewrite Hb.
Qed.


End RenderFacts.

Section RenderRuns.
#[local] Existing Instance ascii_str.
#[local] Existing Instance elements_order.

(** The second example of C1 on the code: no space follows the placeholder. *)
Lemma placeholder_rendering_examples_witness :
  create_leveled_text wetter_analyzer "Das außergewöhnliche Wetter." "B1"
    None None empty_heap
  = ("Das [...]Wetter.", empty_heap).
Proof.
  apply (proj2 (placeholder_rendering_examples wetter_analyzer
                  "Das außergewöhnliche Wetter." "B1" None empty_heap)).
  - vm_compute. reflexivity.
  - vm_compute. reflexivity.
Defined.

(** The tokens and tiers are those of the claim's second example, and the
    rendering is not "Das [...] Wetter.". *)
Lemma placeholder_spacing_counterexample :
  map text (nlp wetter_analyzer "Das außergewöhnliche Wetter.")
    = ["Das"; "außergewöhnliche"; "Wetter"; "."]
  /\ map (above_target wetter_analyzer "B1")
         (nlp wetter_analyzer "Das außergewöhnliche Wetter.")
    = [false; true; false; false]
  /\ fst (create_leveled_text wetter_analyzer "Das außergewöhnliche Wetter." "B1"
            None None empty_heap)
     <> "Das [...] Wetter.".
Proof.
  split; [vm_compute; reflexivity|]. split; [vm_compute; reflexivity|].
  vm_compute. discriminate.
Qed.





End RenderRuns.

(** ** The translation cache *)

Section CacheFacts.
Context {P : PyStr}.

(** What one call of [translate_word] does to the heap: nothing is sent, or
    one request for the word is sent while its key is absent from the cache,
    and the reply's translation is stored under the key. *)
Lemma translate_word_spec svc word lang h :
  calls (translate_word svc word lang h).2 = calls h
  \/ (exists p,
         calls (translate_word svc word lang h).2
         = calls h ++ [{| provider := p; request := TranslateReq word lang;
                          cache_then := translation_cache h |}])
     /\ translation_cache h !! cache_key svc word lang = None
     /\ translation_cache (translate_word svc word lang h).2 !! cache_key svc word lang
        = Some (translate_word svc word lang h).1.
Proof.
  unfold translate_word, bind, get_cache. simpl.
  destruct (translation_cache h !! cache_key svc word lang) eqn:Hkey; [by left|].
  destruct (ai_service svc) as [ai|]; [|by left].
  destruct (String.eqb (ai_model svc) "None"); [by left|].
  destruct (String.eqb (ai_model svc) "Claude" && bool_decide (is_Some (claude_client ai))).
  { unfold _translate_with_claude.
    destruct (claude_client ai) as [c|]; simpl; [|by left].
    right. split; [by exists Claude|]. split; [done|]. apply lookup_insert_eq. }
  destruct (String.eqb (ai_model svc) "Gemini" && bool_decide (is_Some (gemini_client ai))).
  { unfold _translate_with_gemini.
    destruct (gemini_client ai) as [c|]; simpl; [|by left].
    right. split; [by exists Gemini|]. split; [done|]. apply lookup_insert_eq. }
  by left.
Qed.

Lemma translate_word_hit svc word lang h v :
  translation_cache h !! cache_key svc word lang = Some v ->
  translate_word svc word lang h = (v, h).
Proof.
  intros Hkey. unfold translate_word, bind, get_cache. simpl. by rewrite Hkey.
Qed.


Lemma store_lines_calls svc lang pairs : forall tr h,
  calls (store_lines svc lang pairs tr h).2 = calls h.
Proof.
  induction pairs as [|[w line] pairs IH]; intros tr h; simpl; [done|].
  destruct (truthy (strip line)); [|apply IH].
  unfold bind, put_cache. simpl. by rewrite IH.
Qed.

Lemma batch_via_calls svc p c words lang h :
  calls (batch_via svc p c words lang h).2
  = calls h ++ [{| provider := p; request := BatchReq words lang;
                   cache_then := translation_cache h |}].
Proof.
  unfold batch_via, bind, external. simpl.
  destruct (c (calls h) (BatchReq words lang)); [|done].
  by rewrite store_lines_calls.
Qed.

Lemma batch_translate_calls svc ai words lang h :
  calls (_batch_translate_with_ai svc ai words lang h).2 = calls h
  \/ exists p,
       calls (_batch_translate_with_ai svc ai words lang h).2
       = calls h ++ [{| provider := p; request := BatchReq words lang;
                        cache_then := translation_cache h |}].
Proof.
  unfold _batch_translate_with_ai.
  destruct (String.eqb (ai_model svc) "Claude"), (claude_client ai) as [c|];
    try (right; exists Claude; apply batch_via_calls);
    destruct (String.eqb (ai_model svc) "Gemini"), (gemini_client ai) as [c'|];
    try (right; exists Gemini; apply batch_via_calls); by left.
Qed.

Lemma translate_rest_calls svc lang words : forall tr h,
  exists new,
    calls (translate_rest svc lang words tr h).2 = calls h ++ new
    /\ Forall (fun c => uncached_call svc lang c /\ is_batch (request c) = false) new.
Proof.
  induction words as [|w words IH]; intros tr h; simpl.
  { exists []. by rewrite app_nil_r. }
  destruct (tr !! w); [apply IH|].
  unfold bind.
  pose proof (translate_word_spec svc w lang h) as Hw.
  destruct (translate_word svc w lang h) as [t h1]. simpl in Hw.
  destruct (IH (<[w := t]> tr) h1) as (new & Hnew & Hall).
  destruct Hw as [Hw | ([p Hw] & Hmiss & _)].
  - exists new. by rewrite Hnew, Hw.
  - eexists (_ :: new). rewrite Hnew, Hw, <- app_assoc. split; [done|].
    constructor; [|done]. split; [|done].
    intros w' Hw'. simpl in Hw'. apply list_elem_of_singleton in Hw' as ->. done.
Qed.

Lemma uncached_absent svc lang cache words w :
  w ∈ uncached svc lang cache words -> cache !! cache_key svc w lang = None.
Proof.
  unfold uncached. intros Hw.
  apply list_elem_of_In, filter_In in Hw as [_ Hw].
  by apply bool_decide_eq_true in Hw.
Qed.

(** C8: the requests [translate_batch] sends.  A batched request is sent at
    most once and before any other, only for a list of more than five words
    whose uncached part is not empty, and it asks for exactly that part,
    however few words it holds; and no request, batched or single, asks
    about a word whose key the cache held when the request was sent. *)
Theorem translate_batch_calls (svc : TranslationService) (words : list string)
    (lang : string) (h : Heap) :
  exists first rest,
    calls (translate_batch svc words lang h).2 = calls h ++ first ++ rest
    /\ Forall (uncached_call svc lang) (first ++ rest)
    /\ Forall (fun c => is_batch (request c) = false) rest
    /\ (first = []
        \/ 5 < length words
           /\ uncached svc lang (translation_cache h) words <> []
           /\ exists p,
                first = [{| provider := p;
                            request := BatchReq (uncached svc lang (translation_cache h) words) lang;
                            cache_then := translation_cache h |}]).
Proof.
  unfold translate_batch, bind.
  set (pre := match ai_service svc with
              | Some ai => _
              | None => _
              end).
  assert (exists first,
             calls (pre h).2 = calls h ++ first
             /\ Forall (uncached_call svc lang) first
             /\ (first = []
                 \/ 5 < length words
                    /\ uncached svc lang (translation_cache h) words <> []
                    /\ exists p,
                         first = [{| provider := p;
                                     request := BatchReq (uncached svc lang (translation_cache h) words) lang;
                                     cache_then := translation_cache h |}])) as Hpre.
  { subst pre.
    destruct (ai_service svc) as [ai|]; [|no_batch_sent].
    destruct (negb (String.eqb (ai_model svc) "None")); [|no_batch_sent].
    destruct (Nat.ltb_spec 5 (length words)) as [Hlen|_]; [|no_batch_sent].
    simpl. unfold bind, get_cache. simpl.
    destruct (uncached svc lang (translation_cache h) words) as [|u us] eqn:Hun;
      [no_batch_sent|].
    destruct (batch_translate_calls svc ai (u :: us) lang h) as [Hb | [p Hb]].
    - rewrite Hb. no_batch_sent.
    - eexists. split; [exact Hb|]. split.
      + constructor; [|constructor]. intros w Hw. simpl in Hw.
        apply (uncached_absent svc lang (translation_cache h) words). by rewrite Hun.
      + right. split; [done|]. split; [done|]. by exists p. }
  destruct Hpre as (first & Hfirst & Hun & Hshape).
  destruct (pre h) as [tr h1]. simpl in Hfirst.
  destruct (translate_rest_calls svc lang words tr h1) as (rest & Hrest & Hall).
  exists first, rest. rewrite Hrest, Hfirst, <- app_assoc.
  split; [done|]. split; [|split; [|done]].
  - apply Forall_app. split; [done|]. eapply Forall_impl; [exact Hall|].
    by intros c [? _].
  - eapply Forall_impl; [exact Hall|]. by intros c [_ ?].
Qed.

End CacheFacts.

Section CacheRuns.
#[local] Existing Instance ascii_str.


(** Six words of which one is uncached: the batched request is sent, for
    that one word. *)
Lemma small_batch_counterexample :
  uncached claude_service "English" (translation_cache warm_heap) six_words = ["f"]
  /\ map request (calls (translate_batch claude_service six_words "English" warm_heap).2)
     = [BatchReq ["f"] "English"]
  /\ ~ 5 < length (uncached claude_service "English" (translation_cache warm_heap) six_words).
Proof.
  split; [vm_compute; reflexivity|]. split; [vm_compute; reflexivity|].
  vm_compute. lia.
Qed.

End CacheRuns.

(** * Further properties of the index *)

Section IndexInvariants.
Context {P : PyStr}.

(** A property of entries that holds of the index and of everything a column
    offers under its tier holds of the index after the column is read. *)
Lemma column_entries (Q : string -> string -> Prop) level cells : forall wl,
  (forall k v, wl !! k = Some v -> Q k v) ->
  (forall k, k ∈ omap cell_key cells -> k <> "" -> Q k level) ->
  forall k v, fold_left (add_lemma level) cells wl !! k = Some v -> Q k v.
Proof.
  induction cells as [|c cells IH]; intros wl Hwl Hcells; simpl; [done|].
  apply IH.
  - intros k v. destruct c as [x| |]; try apply Hwl. unfold add_lemma.
    destruct (truthy (strip (lower x))) eqn:Ht; [|apply Hwl].
    destruct (wl !! strip (lower x)) eqn:Hx; [apply Hwl|].
    destruct (decide (k = strip (lower x))) as [->|Hne].
    + rewrite lookup_insert_eq. intros [= <-]. apply Hcells.
      * simpl. apply list_elem_of_here.
      * unfold truthy in Ht. by apply negb_true_iff, String.eqb_neq in Ht.
    + rewrite lookup_insert_ne by congruence. apply Hwl.
  - intros k Hk. apply Hcells. simpl.
    destruct (cell_key c); [by apply list_elem_of_further|done].
Qed.

Lemma levels_entries (Q : string -> string -> Prop) fs dir entries : forall wl,
  (forall k v, wl !! k = Some v -> Q k v) ->
  (forall level file k, (level, file) ∈ entries ->
                        k ∈ source_lemmas fs dir file -> k <> "" -> Q k level) ->
  forall k v, fold_left (load_level fs dir) entries wl !! k = Some v -> Q k v.
Proof.
  induction entries as [|[level file] entries IH]; intros wl Hwl Hsrc; simpl; [done|].
  apply IH.
  - pose proof (Hsrc level file) as Hhere. unfold source_lemmas in Hhere.
    destruct (fs (path_join dir file)) as [df|]; [|done].
    destruct (find_lemma_col df) as [col|]; [|done].
    apply column_entries; [done|].
    intros k Hk Hne. apply Hhere; [apply list_elem_of_here|done|done].
  - intros lv f k Hin. apply (Hsrc lv f). by apply list_elem_of_further.
Qed.

(** After the files are read every non-empty key they offer is in the index. *)
Lemma levels_cover fs dir entries : forall wl level file k,
  (level, file) ∈ entries -> k ∈ source_lemmas fs dir file -> k <> "" ->
  is_Some (fold_left (load_level fs dir) entries wl !! k).
Proof.
  induction entries as [|e entries IH]; intros wl level file k Hin Hk Hne; simpl.
  { by apply elem_of_nil in Hin. }
  apply elem_of_cons in Hin as [<-|Hin]; [|by eapply IH].
  destruct (wl !! k) as [v|] eqn:Hwl.
  - exists v. by apply levels_keep, load_level_keep.
  - exists level. by apply levels_keep, load_level_new.
Qed.

Lemma column_noop level cells : forall wl,
  (forall k, k ∈ omap cell_key cells -> k <> "" -> is_Some (wl !! k)) ->
  fold_left (add_lemma level) cells wl = wl.
Proof.
  induction cells as [|c cells IH]; intros wl Hcov; simpl; [done|].
  assert (add_lemma level wl c = wl) as ->.
  { destruct c as [x| |]; try done. unfold add_lemma.
    destruct (truthy (strip (lower x))) eqn:Ht; [|done].
    destruct (Hcov (strip (lower x))) as [v ->]; [|..|done].
    - simpl. apply list_elem_of_here.
    - unfold truthy in Ht. by apply negb_true_iff, String.eqb_neq in Ht. }
  apply IH. intros k Hk. apply Hcov. simpl.
  destruct (cell_key c); [by apply list_elem_of_further|done].
Qed.

Lemma levels_noop fs dir entries : forall wl,
  (forall level file k, (level, file) ∈ entries ->
                        k ∈ source_lemmas fs dir file -> k <> "" -> is_Some (wl !! k)) ->
  fold_left (load_level fs dir) entries wl = wl.
Proof.
  induction entries as [|[level file] entries IH]; intros wl Hcov; [done|].
  change (fold_left ?f (?e :: ?l) ?x) with (fold_left f l (f x e)).
  assert (load_level fs dir wl (level, file) = wl) as ->.
  { pose proof (Hcov level file) as Hhere. unfold load_level, source_lemmas in *.
    destruct (fs (path_join dir file)) as [df|]; [|done].
    destruct (find_lemma_col df) as [col|]; [|done].
    apply column_noop. intros k Hk Hne.
    apply Hhere; [apply list_elem_of_here|done|done]. }
  apply IH. intros lv f k Hin. apply (Hcov lv f). by apply list_elem_of_further.
Qed.

Lemma file_mapping_levels level file :
  (level, file) ∈ file_mapping -> recognized level.
Proof.
  unfold file_mapping. rewrite !elem_of_cons, elem_of_nil.
  intros [Heq|[Heq|[Heq|[Heq|[Heq|[]]]]]]; injection Heq as -> _;
    [by exists A1|by exists A2|by exists B1|by exists B2|by exists C1].
Qed.

(** X1: every entry of an index built from the empty one has a non-empty key
    and one of the five tier labels as its value, and it comes from a cell of
    that tier's file. *)
Theorem loaded_entries_wellformed (a : GermanLanguageAnalyzer) (fs : FileSystem)
    (vocab_dir k v : string) :
  word_levels a = ∅ ->
  word_levels (load_word_lists a fs vocab_dir) !! k = Some v ->
  k <> "" /\ recognized v
  /\ exists file, (v, file) ∈ file_mapping /\ k ∈ source_lemmas fs vocab_dir file.
Proof.
  intros Hempty Hk.
  change (word_levels (load_word_lists a fs vocab_dir))
    with (fold_left (load_level fs vocab_dir) file_mapping (word_levels a)) in Hk.
  rewrite Hempty in Hk.
  assert (k <> "" /\ exists file,
             (v, file) ∈ file_mapping /\ k ∈ source_lemmas fs vocab_dir file)
    as (Hne & file & Hfile & Hsrc).
  { revert Hk.
    apply (levels_entries
             (fun k v => k <> "" /\ exists file,
                  (v, file) ∈ file_mapping /\ k ∈ source_lemmas fs vocab_dir file)).
    - intros k' v' Hv. by rewrite lookup_empty in Hv.
    - intros level file k' Hin Hsrc Hne. split; [done|]. by exists file. }
  split; [done|]. split; [by eapply file_mapping_levels|]. by exists file.
Qed.

(** X3: reading the same files a second time changes nothing. *)
Theorem load_word_lists_idempotent (a : GermanLanguageAnalyzer) (fs : FileSystem)
    (vocab_dir : string) :
  load_word_lists (load_word_lists a fs vocab_dir) fs vocab_dir
  = load_word_lists a fs vocab_dir.
Proof.
  assert (fold_left (load_level fs vocab_dir) file_mapping
            (word_levels (load_word_lists a fs vocab_dir))
          = word_levels (load_word_lists a fs vocab_dir)) as Hsame.
  { apply levels_noop. intros level file k Hin Hk Hne.
    change (word_levels (load_word_lists a fs vocab_dir))
      with (fold_left (load_level fs vocab_dir) file_mapping (word_levels a)).
    by eapply levels_cover. }
  unfold load_word_lists at 1. rewrite Hsame. reflexivity.
Qed.

End IndexInvariants.

Section IndexRoundTrip.
Context {P : PyStr} {L : PyStrLaws P}.

(** X2: a key stored in an index built from the empty one is found by
    [get_word_level] under its own name, with the stored tier. *)
Theorem stored_key_lookup (a : GermanLanguageAnalyzer) (fs : FileSystem)
    (vocab_dir k v : string) :
  word_levels a = ∅ ->
  word_levels (load_word_lists a fs vocab_dir) !! k = Some v ->
  get_word_level (load_word_lists a fs vocab_dir) k = Some v.
Proof.
  intros Hempty Hk. unfold get_word_level.
  assert (lower k = k) as ->; [|done].
  change (word_levels (load_word_lists a fs vocab_dir))
    with (fold_left (load_level fs vocab_dir) file_mapping (word_levels a)) in Hk.
  rewrite Hempty in Hk. revert Hk.
  apply (levels_entries (fun k _ => lower k = k)).
  - intros k' v' Hv. by rewrite lookup_empty in Hv.
  - intros level file k' _ Hsrc _. by apply (source_lemma_normal fs vocab_dir file).
Qed.

(** X4: the sidebar's lookup reads the index at the lowercased and trimmed
    form of what was typed; so it finds, with a tier label, every word whose
    normal form some cell of a tier file has, whatever its case and the
    whitespace around it. *)
Theorem word_lookup_finds_cells (a : GermanLanguageAnalyzer) (fs : FileSystem)
    (vocab_dir level file test_word : string) :
  (level, file) ∈ file_mapping ->
  strip (lower test_word) ∈ source_lemmas fs vocab_dir file ->
  strip (lower test_word) <> "" ->
  word_lookup (load_word_lists a fs vocab_dir) test_word
  = word_levels (load_word_lists a fs vocab_dir) !! strip (lower test_word)
  /\ is_Some (word_lookup (load_word_lists a fs vocab_dir) test_word).
Proof.
  intros Hin Hsrc Hne.
  assert (word_lookup (load_word_lists a fs vocab_dir) test_word
          = word_levels (load_word_lists a fs vocab_dir) !! strip (lower test_word))
    as Heq.
  { unfold word_lookup, get_word_level. by rewrite lower_normal. }
  split; [done|]. rewrite Heq.
  change (word_levels (load_word_lists a fs vocab_dir))
    with (fold_left (load_level fs vocab_dir) file_mapping (word_levels a)).
  by eapply levels_cover.
Qed.

End IndexRoundTrip.

(** * Further properties of analyze_text *)

Section AnalysisShape.
Context {P : PyStr} {O : PySet}.

Lemma analyze_token_all_words a target st token :
  l_all_words (analyze_token a target st token)
  = l_all_words st ++
    (if considered a token then [(text token, effective_lemma token)] else []).
Proof.
  unfold analyze_token, considered.
  destruct (is_punct token || is_space token); simpl; [by rewrite app_nil_r|].
  destruct (truthy (ent_type_ token)); simpl; [by rewrite app_nil_r|].
  destruct (bool_decide (_ ∈ stopwords a)); simpl; [by rewrite app_nil_r|].
  destruct (bool_decide (_ ∈ core_words a)); simpl; [by rewrite app_nil_r|done].
Qed.

Lemma analyze_tokens_all_words a target d : forall st,
  l_all_words (fold_left (analyze_token a target) d st)
  = l_all_words st ++
    map (fun token => (text token, effective_lemma token)) (List.filter (considered a) d).
Proof.
  induction d as [|token d IH]; intros st; simpl; [by rewrite app_nil_r|].
  rewrite IH, analyze_token_all_words.
  destruct (considered a token); simpl; by rewrite <- app_assoc.
Qed.

(** X5: the considered words are, in the order of the text, the surface and
    lemma of exactly the tokens that are neither punctuation nor whitespace,
    carry no entity tag and whose lemma is in neither exclusion set;
    [total_words] counts them. *)
Theorem all_words_are_considered_tokens (a : GermanLanguageAnalyzer) (d : Doc)
    (target : string) :
  all_words (analyze_doc a d target)
  = map (fun token => (text token, effective_lemma token)) (List.filter (considered a) d)
  /\ total_words (analyze_doc a d target) = length (List.filter (considered a) d).
Proof.
  unfold analyze_doc. cbn [all_words total_words].
  rewrite analyze_tokens_all_words. simpl. by rewrite length_map.
Qed.

Lemma bucket_of_append lv k v d :
  bucket_of lv (bucket_append k v d)
  = if String.eqb k lv then bucket_of lv d ++ [v] else bucket_of lv d.
Proof.
  unfold bucket_of. induction d as [|[k' vs] d IH]; simpl.
  - by destruct (String.eqb k lv).
  - destruct (String.eqb_spec k' k) as [->|Hk]; simpl.
    + by destruct (String.eqb k lv).
    + destruct (String.eqb_spec k' lv) as [->|Hlv]; [|exact IH].
      destruct (String.eqb_spec k lv) as [->|_]; done.
Qed.

Lemma analyze_token_bucket a target lv st token :
  bucket_of lv (l_words_above_level (analyze_token a target st token))
  = bucket_of lv (l_words_above_level st) ++
    (if considered a token && filed_above a target lv token
     then [word_info token] else []).
Proof.
  unfold analyze_token, considered, filed_above.
  destruct (is_punct token || is_space token); simpl; [by rewrite app_nil_r|].
  destruct (truthy (ent_type_ token)); simpl; [by rewrite app_nil_r|].
  destruct (bool_decide (_ ∈ stopwords a)); simpl; [by rewrite app_nil_r|].
  destruct (bool_decide (_ ∈ core_words a)); simpl; [by rewrite app_nil_r|].
  destruct (get_word_level a (effective_lemma token)) as [l|]; [|by rewrite app_nil_r].
  destruct (truthy l && is_above_level l target) eqn:Hab.
  - rewrite bucket_of_append. apply andb_true_iff in Hab as [-> ->].
    destruct (String.eqb l lv); simpl; [done|by rewrite app_nil_r].
  - replace (String.eqb l lv && truthy l && is_above_level l target) with false.
    + by rewrite app_nil_r.
    + rewrite <- andb_assoc, Hab. by rewrite andb_false_r.
Qed.

Lemma analyze_tokens_bucket a target lv d : forall st,
  bucket_of lv (l_words_above_level (fold_left (analyze_token a target) d st))
  = bucket_of lv (l_words_above_level st) ++
    map word_info
      (List.filter (fun token => considered a token && filed_above a target lv token) d).
Proof.
  induction d as [|token d IH]; intros st; simpl; [by rewrite app_nil_r|].
  rewrite IH, analyze_token_bucket.
  destruct (considered a token && filed_above a target lv token); simpl;
    by rewrite <- app_assoc.
Qed.

(** X6: the bucket of a tier holds, in the order of the text, one entry for
    each considered token whose lemma the index files under that tier, if the
    tier is above the target; it holds nothing otherwise. *)
Theorem bucket_holds_filed_tokens (a : GermanLanguageAnalyzer) (d : Doc)
    (target lv : string) :
  bucket_of lv (words_above_level (analyze_doc a d target))
  = map word_info
      (List.filter (fun token => considered a token && filed_above a target lv token) d).
Proof.
  unfold analyze_doc. cbn [words_above_level].
  by rewrite analyze_tokens_bucket.
Qed.

Lemma bucket_append_keys k v d :
  map fst (bucket_append k v d) = map fst d
  \/ ((k ∉ map fst d) /\ map fst (bucket_append k v d) = map fst d ++ [k]).
Proof.
  induction d as [|[k' vs] d IH]; simpl.
  - right. split; [apply not_elem_of_nil|done].
  - destruct (String.eqb_spec k' k) as [->|Hk]; simpl; [by left|].
    destruct IH as [->|[Hnot ->]]; [by left|].
    right. split; [|done]. apply not_elem_of_cons. split; [congruence|done].
Qed.

Lemma bucket_append_ok target k v d :
  is_above_level k target = true -> buckets_ok target d ->
  buckets_ok target (bucket_append k v d).
Proof.
  intros Hk [Hnd Hall]. split.
  - destruct (bucket_append_keys k v d) as [->|[Hnot ->]]; [done|].
    apply NoDup_app. split; [done|]. split.
    + intros x Hx Hx'. apply list_elem_of_singleton in Hx' as ->. done.
    + apply NoDup_singleton.
  - clear Hnd. induction d as [|[k' vs] d IH]; simpl.
    + constructor; [|constructor]. done.
    + apply Forall_cons in Hall as [[Hk' Hvs] Hall].
      destruct (String.eqb k' k); constructor; try done.
      * split; [done|]. by destruct vs.
      * by apply IH.
Qed.

Lemma analyze_token_buckets_ok a target st token :
  buckets_ok target (l_words_above_level st) ->
  buckets_ok target (l_words_above_level (analyze_token a target st token)).
Proof.
  intros Hok. unfold analyze_token.
  destruct (is_punct token || is_space token); [done|].
  destruct (truthy (ent_type_ token)); [done|].
  destruct (bool_decide (_ ∈ stopwords a)); [done|].
  destruct (bool_decide (_ ∈ core_words a)); [done|].
  cbn [l_words_above_level].
  destruct (get_word_level a (effective_lemma token)) as [l|]; [|done].
  destruct (truthy l && is_above_level l target) eqn:Hab; [|done].
  apply andb_true_iff in Hab as [_ Hab]. by apply bucket_append_ok.
Qed.

Lemma above_is_recognized lv target :
  is_above_level lv target = true -> recognized lv.
Proof.
  unfold is_above_level. destruct (level_order !! lv) as [w|] eqn:Hlv; [|done].
  intros _. apply elem_of_list_to_map_2 in Hlv.
  rewrite !elem_of_cons, elem_of_nil in Hlv.
  destruct Hlv as [Heq|[Heq|[Heq|[Heq|[Heq|[]]]]]]; injection Heq as -> _;
    [by exists A1|by exists A2|by exists B1|by exists B2|by exists C1].
Qed.

(** X7: in the returned dictionary the bucket keys are pairwise distinct tier
    labels above the target tier, and no bucket is empty. *)
Theorem buckets_are_above_target (a : GermanLanguageAnalyzer) (d : Doc)
    (target : string) :
  NoDup (map fst (words_above_level (analyze_doc a d target)))
  /\ forall lv ws, (lv, ws) ∈ words_above_level (analyze_doc a d target) ->
       is_above_level lv target = true /\ recognized lv /\ ws <> [].
Proof.
  assert (buckets_ok target (words_above_level (analyze_doc a d target)))
    as [Hnd Hall].
  { unfold analyze_doc. cbn [words_above_level].
    assert (forall st, buckets_ok target (l_words_above_level st) ->
              buckets_ok target
                (l_words_above_level (fold_left (analyze_token a target) d st)))
      as Hgen.
    { induction d as [|token d IH]; intros st Hst; simpl; [done|].
      by apply IH, analyze_token_buckets_ok. }
    apply Hgen. split; [constructor|constructor]. }
  split; [done|]. intros lv ws Hin.
  rewrite Forall_forall in Hall. destruct (Hall _ Hin) as [Hab Hne].
  split; [done|]. split; [by eapply above_is_recognized|done].
Qed.

End AnalysisShape.

Section AnalysisCounts.
Context {P : PyStr} {O : PySet}.

Lemma analyze_token_counts a target st token :
  length (processed_tokens (l_debug_info (analyze_token a target st token)))
  = length (processed_tokens (l_debug_info st))
    + (if is_punct token || is_space token then 0 else 1)
  /\ length (l_all_words (analyze_token a target st token))
     + length (skipped_words (l_debug_info (analyze_token a target st token)))
     = length (l_all_words st) + length (skipped_words (l_debug_info st))
       + (if is_punct token || is_space token then 0 else 1).
Proof.
  unfold analyze_token.
  destruct (is_punct token || is_space token); [lia|].
  destruct (truthy (ent_type_ token));
    [|destruct (bool_decide (_ ∈ stopwords a));
      [|destruct (bool_decide (_ ∈ core_words a))]];
    simpl; rewrite ?length_app; simpl; lia.
Qed.

(** X8: every token that is neither punctuation nor whitespace is logged once
    in [processed_tokens], and each logged token is either a considered word
    or has exactly one skip note: the two counts add up to the log's length. *)
Theorem processed_tokens_accounted (a : GermanLanguageAnalyzer) (d : Doc)
    (target : string) :
  length (processed_tokens (debug_info (analyze_doc a d target)))
  = length (List.filter (fun token => negb (is_punct token || is_space token)) d)
  /\ total_words (analyze_doc a d target)
     + length (skipped_words (debug_info (analyze_doc a d target)))
     = length (processed_tokens (debug_info (analyze_doc a d target))).
Proof.
  unfold analyze_doc. cbn [debug_info total_words].
  assert (forall st,
    length (processed_tokens (l_debug_info (fold_left (analyze_token a target) d st)))
    = length (processed_tokens (l_debug_info st))
      + length (List.filter (fun token => negb (is_punct token || is_space token)) d)
    /\ length (l_all_words (fold_left (analyze_token a target) d st))
       + length (skipped_words (l_debug_info (fold_left (analyze_token a target) d st)))
       = length (l_all_words st) + length (skipped_words (l_debug_info st))
         + length (List.filter (fun token => negb (is_punct token || is_space token)) d))
    as Hgen.
  { induction d as [|token d IH]; intros st; simpl; [lia|].
    destruct (IH (analyze_token a target st token)) as [-> ->].
    destruct (analyze_token_counts a target st token) as [-> ->].
    destruct (is_punct token || is_space token); simpl; lia. }
  destruct (Hgen init_locals) as [H1 H2]. simpl in H1, H2. lia.
Qed.

Lemma analyze_token_entities a target st token x :
  x ∈ l_skipped_entities (analyze_token a target st token)
  <-> x ∈ l_skipped_entities st
      \/ (text token = x /\ is_punct token || is_space token = false
          /\ ent_type_ token <> "").
Proof.
  unfold analyze_token.
  destruct (is_punct token || is_space token).
  { split; [by left|]. intros [?|(_ & ? & _)]; done. }
  destruct (truthy (ent_type_ token)) eqn:Hent.
  - cbn [l_skipped_entities]. rewrite elem_of_union, elem_of_singleton.
    unfold truthy in Hent. apply negb_true_iff, String.eqb_neq in Hent.
    split.
    + intros [?| ->]; [by left|by right].
    + intros [?|(-> & _)]; [by left|by right].
  - unfold truthy in Hent. apply negb_false_iff, String.eqb_eq in Hent.
    assert (x ∈ l_skipped_entities st
            <-> x ∈ l_skipped_entities st
                \/ (text token = x /\ false = false /\ ent_type_ token <> ""))
      as Hsame.
    { split; [by left|]. intros [?|(_ & _ & ?)]; done. }
    destruct (bool_decide (_ ∈ stopwords a));
      [|destruct (bool_decide (_ ∈ core_words a))]; exact Hsame.
Qed.

(** X9: the skipped entities are exactly the surface forms of the tokens that
    carry an entity tag and are neither punctuation nor whitespace. *)
Theorem skipped_entities_are_tagged_tokens (a : GermanLanguageAnalyzer) (d : Doc)
    (target x : string) :
  x ∈ skipped_entities (analyze_doc a d target)
  <-> exists token, token ∈ d /\ text token = x
                    /\ is_punct token || is_space token = false
                    /\ ent_type_ token <> "".
Proof.
  unfold analyze_doc. cbn [skipped_entities]. rewrite set_list_elem.
  assert (forall st,
    x ∈ l_skipped_entities (fold_left (analyze_token a target) d st)
    <-> x ∈ l_skipped_entities st
        \/ exists token, token ∈ d /\ text token = x
                         /\ is_punct token || is_space token = false
                         /\ ent_type_ token <> "") as Hgen.
  { induction d as [|token d IH]; intros st; simpl.
    - split; [by left|]. intros [?|(t & Ht & _)]; [done|by apply elem_of_nil in Ht].
    - rewrite IH, analyze_token_entities. split.
      + intros [[?|?]|(t & Ht & ?)]; [by left| |].
        * right. exists token. split; [apply list_elem_of_here|done].
        * right. exists t. split; [by apply list_elem_of_further|done].
      + intros [?|(t & Ht & Hx)]; [by left; left|].
        apply elem_of_cons in Ht as [->|Ht]; [by left; right|].
        right. by exists t. }
  rewrite Hgen. simpl. split; [|by right].
  intros [Hx|?]; [|done]. by apply elem_of_empty in Hx.
Qed.

Lemma bucket_append_sum k v d :
  list_sum (map (fun '(_, words) => length words) (bucket_append k v d))
  = S (list_sum (map (fun '(_, words) => length words) d)).
Proof.
  induction d as [|[k' vs] d IH]; simpl; [done|].
  destruct (String.eqb k' k); simpl; [rewrite length_app; simpl; lia|].
  rewrite IH. lia.
Qed.

(** X10: the number of bucket entries never exceeds the number of considered
    words. *)
Theorem total_above_at_most_total_words (a : GermanLanguageAnalyzer) (d : Doc)
    (target : string) :
  total_above (analyze_doc a d target) <= total_words (analyze_doc a d target).
Proof.
  unfold total_above, analyze_doc. cbn [words_above_level total_words].
  assert (forall st,
    list_sum (map (fun '(_, words) => length words) (l_words_above_level st))
      <= length (l_all_words st) ->
    list_sum (map (fun '(_, words) => length words)
                (l_words_above_level (fold_left (analyze_token a target) d st)))
      <= length (l_all_words (fold_left (analyze_token a target) d st))) as Hgen.
  { induction d as [|token d IH]; intros st Hst; simpl; [done|].
    apply IH. unfold analyze_token.
    destruct (is_punct token || is_space token); [done|].
    destruct (truthy (ent_type_ token)); [done|].
    destruct (bool_decide (_ ∈ stopwords a)); [done|].
    destruct (bool_decide (_ ∈ core_words a)); [done|].
    cbn [l_words_above_level l_all_words]. rewrite length_app. simpl.
    destruct (get_word_level a (effective_lemma token)) as [l|]; [|lia].
    destruct (truthy l && is_above_level l target); [|lia].
    rewrite bucket_append_sum. lia. }
  apply Hgen. simpl. lia.
Qed.

End AnalysisCounts.

(** * Further properties of create_leveled_text *)

Lemma append_assoc (s1 s2 s3 : string) : (s1 +:+ s2) +:+ s3 = s1 +:+ (s2 +:+ s3).
Proof.
  induction s1 as [|c s1 IH]; [done|].
  change (String c ((s1 +:+ s2) +:+ s3) = String c (s1 +:+ (s2 +:+ s3))).
  by rewrite IH.
Qed.

Lemma append_nil_r (s : string) : s +:+ "" = s.
Proof.
  induction s as [|c s IH]; [done|].
  change (String c (s +:+ "") = String c s). by rewrite IH.
Qed.

Lemma nth_last_of_prefix (pre suf : list string) (p : string) :
  last pre = Some p -> nth (length pre - 1) (pre ++ suf) "" = p.
Proof.
  intros Hlast. apply last_Some in Hlast as [pre' ->].
  rewrite length_app, <- app_assoc. simpl.
  replace (length pre' + 1 - 1) with (length pre') by lia.
  apply nth_middle.
Qed.

Lemma space_before_gap (pre suf : list string) (token : string) :
  (if space_before (pre ++ token :: suf) (length pre) token then " " else "")
  = gap (last pre) token.
Proof.
  unfold space_before, gap. destruct (last pre) as [p|] eqn:Hlast.
  - rewrite (nth_last_of_prefix pre (token :: suf) p Hlast).
    assert ((0 <? length pre)%nat = true) as ->.
    { apply Nat.ltb_lt. destruct pre; [done|simpl; lia]. }
    done.
  - apply last_None in Hlast as ->. done.
Qed.

Lemma reconstruct_from (suf : list string) : forall pre acc,
  fold_left
    (fun result '(n, token) =>
       (if space_before (pre ++ suf) n token then result +:+ " " else result) +:+ token)
    (zip (seq (length pre) (length suf)) suf) acc
  = acc +:+ glue (last pre) suf.
Proof.
  induction suf as [|token suf IH]; intros pre acc; simpl.
  { by rewrite append_nil_r. }
  pose proof (IH (pre ++ [token])) as IH'.
  rewrite <- app_assoc, length_app, last_snoc in IH'. simpl in IH'.
  replace (length pre + 1) with (S (length pre)) in IH' by lia.
  rewrite IH'. rewrite <- space_before_gap with (suf := suf).
  destruct (space_before (pre ++ token :: suf) (length pre) token);
    rewrite ?append_assoc; done.
Qed.

(** X11: the rebuilt text can be read off token by token: the first token is
    written as it is; a later token gets one space before it unless it is a
    part of the string ".,;:!?" (the empty token is one) or its predecessor
    is the placeholder. *)
Theorem reconstruct_by_predecessor (tokens : list string) :
  reconstruct tokens = glue None tokens.
Proof.
  unfold reconstruct. exact (reconstruct_from tokens [] "").
Qed.

Lemma glue_plain (tokens : list string) : forall p,
  Forall plain_word tokens -> p <> "[...]" ->
  glue (Some p) tokens
  = match tokens with [] => "" | _ => " " +:+ String.concat " " tokens end.
Proof.
  induction tokens as [|t rest IH]; intros p Hall Hp; [done|].
  apply Forall_cons in Hall as [[Hpunct Ht] Hall].
  cbn [glue gap]. rewrite Hpunct.
  assert (String.eqb p "[...]" = false) as -> by by apply String.eqb_neq.
  rewrite (IH t Hall Ht). destruct rest as [|t' rest']; simpl; [|done].
  by rewrite append_nil_r.
Qed.

(** X12: tokens none of which is a part of the punctuation string or the
    placeholder are joined by single spaces. *)
Theorem reconstruct_plain_words (tokens : list string) :
  Forall plain_word tokens ->
  reconstruct tokens = String.concat " " tokens.
Proof.
  intros Hall. transitivity (glue None tokens);
    [exact (reconstruct_from tokens [] "")|].
  destruct tokens as [|t rest]; [done|].
  apply Forall_cons in Hall as [[_ Ht] Hall].
  cbn [glue gap]. rewrite (glue_plain rest t Hall Ht).
  destruct rest; simpl; [by rewrite append_nil_r|done].
Qed.

Section RenderEffects.
Context {P : PyStr} {O : PySet}.

Lemma analyze_token_not_above a target st token :
  above_target a target token = false ->
  l_words_above_level (analyze_token a target st token) = l_words_above_level st.
Proof.
  intros Hab. unfold analyze_token, above_target in *.
  destruct (is_punct token || is_space token); [done|].
  destruct (truthy (ent_type_ token)); [done|].
  destruct (bool_decide (_ ∈ stopwords a)); [done|].
  destruct (bool_decide (_ ∈ core_words a)); [done|].
  cbn [l_words_above_level].
  destruct (get_word_level a (effective_lemma token)) as [l|]; [|done].
  by rewrite Hab.
Qed.

Lemma no_token_above_no_bucket a target d :
  (forall token, token ∈ d -> above_target a target token = false) ->
  words_above_level (analyze_doc a d target) = [].
Proof.
  intros Hnone. unfold analyze_doc. cbn [words_above_level].
  assert (forall st, l_words_above_level (fold_left (analyze_token a target) d st)
                     = l_words_above_level st) as Hgen.
  { induction d as [|token d IH]; intros st; simpl; [done|].
    rewrite IH.
    - apply analyze_token_not_above, Hnone, list_elem_of_here.
    - intros t Ht. by apply Hnone, list_elem_of_further. }
  by rewrite Hgen.
Qed.

(** X13: when the index ranks no token of the text above the target tier, no
    request is sent, whatever service and model are passed, and the text
    comes back rebuilt from the unchanged surface forms (or as it was given,
    if it has no token). *)
Theorem nothing_above_needs_no_service (a : GermanLanguageAnalyzer)
    (txt target : string) (ai : option AIService) (model : option string)
    (h : Heap) :
  (forall token, token ∈ nlp a txt -> above_target a target token = false) ->
  create_leveled_text a txt target ai model h
  = (match nlp a txt with [] => txt | d => reconstruct (map text d) end, h).
Proof.
  intros Hnone.
  assert (words_to_replace_of (analyze_text a txt target) = []) as Hwords.
  { unfold words_to_replace_of, analyze_text.
    by rewrite (no_token_above_no_bucket a target (nlp a txt) Hnone). }
  assert (fallback_text a txt target (analyze_text a txt target)
          = match nlp a txt with [] => txt | d => reconstruct (map text d) end)
    as Hfall.
  { unfold fallback_text. cbn [doc analyze_text analyze_doc].
    destruct (nlp a txt) as [|t d] eqn:Hd; [done|]. f_equal.
    apply map_ext_in. intros token Hin. unfold leveled_token.
    specialize (Hnone token (proj2 (list_elem_of_In _ _) Hin)).
    unfold above_target in Hnone.
    destruct (get_word_level a (effective_lemma token)); [|done].
    by rewrite Hnone. }
  unfold create_leveled_text. rewrite Hwords, Hfall.
  destruct ai as [ai|]; [|done]. destruct model as [m|]; [|done].
  rewrite bool_decide_eq_true_2 by done. by rewrite andb_false_r.
Qed.

(** X14: [create_leveled_text] never touches the translation cache and sends
    at most one request.  Either nothing is sent and the fallback text is
    returned; or one request to simplify the given text is sent through the
    client of the named provider, with a non-empty list of words to replace,
    and the reply comes back as it is, or the given text when the call
    raises. *)
Theorem create_leveled_text_effects (a : GermanLanguageAnalyzer)
    (txt target : string) (ai : option AIService) (model : option string)
    (h : Heap) :
  translation_cache (create_leveled_text a txt target ai model h).2
  = translation_cache h
  /\ (create_leveled_text a txt target ai model h
      = (fallback_text a txt target (analyze_text a txt target), h)
      \/ exists ai_service p c,
           ai = Some ai_service
           /\ words_to_replace_of (analyze_text a txt target) <> []
           /\ ((p = Claude /\ model = Some "Claude" /\ claude_client ai_service = Some c)
               \/ (p = Gemini /\ model = Some "Gemini"
                   /\ gemini_client ai_service = Some c))
           /\ create_leveled_text a txt target ai model h
              = (default txt
                   (c (calls h)
                      (SimplifyReq txt target
                         (words_to_replace_of (analyze_text a txt target)))),
                 {| translation_cache := translation_cache h;
                    calls := calls h ++
                      [{| provider := p;
                          request := SimplifyReq txt target
                                       (words_to_replace_of (analyze_text a txt target));
                          cache_then := translation_cache h |}] |})).
Proof.
  unfold create_leveled_text.
  destruct ai as [ai_service|]; [|split; [done|by left]].
  destruct model as [m|]; [|split; [done|by left]].
  destruct (truthy m); [|split; [done|by left]].
  destruct (decide (words_to_replace_of (analyze_text a txt target) = []))
    as [Hnil|Hwords].
  { rewrite (bool_decide_eq_true_2 _ Hnil). split; [done|by left]. }
  rewrite (bool_decide_eq_false_2 _ Hwords). cbn [negb andb].
  destruct (String.eqb_spec m "Claude") as [->|Hclaude].
  - destruct (claude_client ai_service) as [c|] eqn:Hc.
    + rewrite bool_decide_eq_true_2 by eauto. cbn [andb].
      unfold simplify_text_claude, bind, external, ret. rewrite Hc.
      split; [by destruct (c _ _)|]. right. exists ai_service, Claude, c.
      split; [done|]. split; [done|]. split; [left; done|].
      by destruct (c _ _).
    + rewrite bool_decide_eq_false_2 by (intros [? ?]; done). cbn.
      split; [done|by left].
  - cbn [andb]. destruct (String.eqb_spec m "Gemini") as [->|Hgemini];
      [|split; [done|by left]].
    destruct (gemini_client ai_service) as [c|] eqn:Hc.
    + rewrite bool_decide_eq_true_2 by eauto. cbn [andb].
      unfold simplify_text_gemini, bind, external, ret. rewrite Hc.
      split; [by destruct (c _ _)|]. right. exists ai_service, Gemini, c.
      split; [done|]. split; [done|]. split; [right; done|].
      by destruct (c _ _).
    + rewrite bool_decide_eq_false_2 by (intros [? ?]; done). cbn.
      split; [done|by left].
Qed.

End RenderEffects.

(** * Further properties of the translation service *)

Lemma append_length (s1 s2 : string) :
  String.length (s1 +:+ s2) = String.length s1 + String.length s2.
Proof.
  induction s1 as [|c s1 IH]; [done|].
  change (S (String.length (s1 +:+ s2)) = S (String.length s1 + String.length s2)).
  by rewrite IH.
Qed.

Lemma append_inj_r (t : string) : forall s1 s2, s1 +:+ t = s2 +:+ t -> s1 = s2.
Proof.
  induction s1 as [|c1 s1 IH]; intros [|c2 s2] Heq; [done| | |].
  - apply (f_equal String.length) in Heq.
    rewrite !append_length in Heq. simpl in Heq. lia.
  - apply (f_equal String.length) in Heq.
    rewrite !append_length in Heq. simpl in Heq. lia.
  - change (String c1 (s1 +:+ t) = String c2 (s2 +:+ t)) in Heq.
    injection Heq as -> Heq. f_equal. by apply IH.
Qed.

Lemma append_truthy_r (s t : string) : truthy t = true -> truthy (s +:+ t) = true.
Proof.
  unfold truthy. rewrite !negb_true_iff, !String.eqb_neq. intros Ht Hst.
  apply (f_equal String.length) in Hst. rewrite append_length in Hst.
  destruct t; [done|]. simpl in Hst. lia.
Qed.

Section CacheInvariants.
Context {P : PyStr}.

Lemma cache_key_inj svc lang w1 w2 :
  cache_key svc w1 lang = cache_key svc w2 lang -> w1 = w2.
Proof. unfold cache_key. apply append_inj_r. Qed.

Lemma mock_translation_truthy word lang : truthy (mock_translation word lang) = true.
Proof.
  unfold mock_translation. apply append_truthy_r.
  change (truthy (String " " (String "(" (upper (take_chars 2 lang) +:+ ")"))) = true).
  done.
Qed.

Lemma translation_of_reply_truthy word lang r :
  truthy (translation_of_reply word lang r) = true.
Proof.
  unfold translation_of_reply. destruct r as [t|].
  - destruct (truthy (strip t)) eqn:Ht; [done|apply mock_translation_truthy].
  - by apply append_truthy_r.
Qed.

(** The three ways a call of [translate_word] can go. *)
Lemma translate_word_cases svc word lang h :
  (exists v, translation_cache h !! cache_key svc word lang = Some v
             /\ translate_word svc word lang h = (v, h))
  \/ (translation_cache h !! cache_key svc word lang = None
      /\ caching svc = false
      /\ translate_word svc word lang h = (mock_translation word lang, h))
  \/ (translation_cache h !! cache_key svc word lang = None
      /\ caching svc = true
      /\ exists v new,
           truthy v = true
           /\ translate_word svc word lang h
              = (v, {| translation_cache :=
                         <[cache_key svc word lang := v]> (translation_cache h);
                       calls := calls h ++ new |})).
Proof.
  unfold translate_word, caching, bind, get_cache. simpl.
  destruct (translation_cache h !! cache_key svc word lang) as [v|] eqn:Hkey.
  { left. by exists v. }
  right. destruct (ai_service svc) as [ai|]; [|by left].
  destruct (String.eqb (ai_model svc) "None"); [by left|].
  right. split; [done|]. split; [done|].
  destruct (String.eqb (ai_model svc) "Claude" && bool_decide (is_Some (claude_client ai))).
  { unfold _translate_with_claude. destruct (claude_client ai) as [c|]; simpl.
    - eexists _, [_]. split; [|reflexivity]. apply translation_of_reply_truthy.
    - eexists _, []. rewrite app_nil_r. split; [|reflexivity].
      by apply append_truthy_r. }
  destruct (String.eqb (ai_model svc) "Gemini" && bool_decide (is_Some (gemini_client ai))).
  { unfold _translate_with_gemini. destruct (gemini_client ai) as [c|]; simpl.
    - eexists _, [_]. split; [|reflexivity]. apply translation_of_reply_truthy.
    - eexists _, []. rewrite app_nil_r. split; [|reflexivity].
      by apply append_truthy_r. }
  simpl. eexists _, []. rewrite app_nil_r. split; [|reflexivity].
  apply mock_translation_truthy.
Qed.

Lemma translate_word_keeps svc word lang c0 h :
  cache_keeps c0 h -> cache_keeps c0 (translate_word svc word lang h).2.
Proof.
  intros Hkeep.
  destruct (translate_word_cases svc word lang h)
    as [(v & _ & ->) | [(_ & _ & ->) | (Hmiss & _ & v & new & _ & ->)]]; try done.
  intros k v' Hk. simpl. rewrite lookup_insert_ne; [by apply Hkeep|].
  intros <-. apply Hkeep in Hk. congruence.
Qed.

Lemma store_lines_keeps svc lang c0 pairs : forall tr h,
  (forall w line, (w, line) ∈ pairs -> c0 !! cache_key svc w lang = None) ->
  cache_keeps c0 h -> cache_keeps c0 (store_lines svc lang pairs tr h).2.
Proof.
  induction pairs as [|[w line] pairs IH]; intros tr h Hnew Hkeep; simpl; [done|].
  assert (forall w' line', (w', line') ∈ pairs -> c0 !! cache_key svc w' lang = None)
    as Hrest by (intros w' line' Hin; eapply Hnew; by apply list_elem_of_further).
  destruct (truthy (strip line)); [|by apply IH].
  unfold bind, put_cache. simpl. apply IH; [done|].
  intros k v Hk. simpl. rewrite lookup_insert_ne; [by apply Hkeep|].
  intros <-. rewrite (Hnew w line) in Hk; [done|apply list_elem_of_here].
Qed.

Lemma store_lines_keys svc lang pairs : forall tr h w,
  is_Some ((store_lines svc lang pairs tr h).1 !! w) ->
  is_Some (tr !! w) \/ w ∈ map fst pairs.
Proof.
  induction pairs as [|[w' line] pairs IH]; intros tr h w Hw; simpl in *; [by left|].
  destruct (truthy (strip line)).
  - unfold bind, put_cache in Hw. simpl in Hw.
    apply IH in Hw as [Hw|Hw]; [|right; by apply list_elem_of_further].
    destruct (decide (w' = w)) as [->|Hne]; [right; apply list_elem_of_here|].
    left. by rewrite lookup_insert_ne in Hw.
  - apply IH in Hw as [Hw|Hw]; [by left|right; by apply list_elem_of_further].
Qed.

Lemma zip_fst_subset (words lines : list string) w :
  w ∈ map fst (zip words lines) -> w ∈ words.
Proof.
  revert lines. induction words as [|x words IH]; intros [|l lines] Hw; simpl in *;
    try by apply elem_of_nil in Hw.
  apply elem_of_cons in Hw as [->|Hw]; [apply list_elem_of_here|].
  apply list_elem_of_further. by eapply IH.
Qed.

Lemma zip_pair_subset (words lines : list string) w line :
  (w, line) ∈ zip words lines -> w ∈ words.
Proof.
  intros Hin. apply (zip_fst_subset words lines).
  apply list_elem_of_fmap. by exists (w, line).
Qed.

(** What the batched request leaves behind: only words it was asked about
    are answered, and entries of the cache present before are kept when the
    words asked about were not cached. *)
Lemma batch_translate_result svc ai words lang c0 h :
  (forall w, is_Some ((_batch_translate_with_ai svc ai words lang h).1 !! w) ->
             w ∈ words)
  /\ ((forall w, w ∈ words -> c0 !! cache_key svc w lang = None) ->
      cache_keeps c0 h ->
      cache_keeps c0 (_batch_translate_with_ai svc ai words lang h).2).
Proof.
  assert (forall p c,
    (forall w, is_Some ((batch_via svc p c words lang h).1 !! w) -> w ∈ words)
    /\ ((forall w, w ∈ words -> c0 !! cache_key svc w lang = None) ->
        cache_keeps c0 h -> cache_keeps c0 (batch_via svc p c words lang h).2))
    as Hvia.
  { intros p c. unfold batch_via, bind, external. simpl.
    destruct (c (calls h) (BatchReq words lang)) as [t|]; simpl.
    - split.
      + intros w Hw. apply store_lines_keys in Hw as [Hw|Hw].
        * rewrite lookup_empty in Hw. by destruct Hw.
        * by eapply zip_fst_subset.
      + intros Hnew Hkeep. apply store_lines_keeps; [|done].
        intros w line Hin. eapply Hnew, zip_pair_subset, Hin.
    - split; [|done]. intros w Hw. rewrite lookup_empty in Hw. by destruct Hw. }
  assert ((forall w, is_Some ((ret (∅ : gmap string string) h).1 !! w) -> w ∈ words)
          /\ ((forall w, w ∈ words -> c0 !! cache_key svc w lang = None) ->
              cache_keeps c0 h ->
              cache_keeps c0 (ret (∅ : gmap string string) h).2)) as Hnone.
  { split; [|done]. intros w Hw. simpl in Hw. rewrite lookup_empty in Hw. by destruct Hw. }
  unfold _batch_translate_with_ai.
  destruct (String.eqb (ai_model svc) "Claude"), (claude_client ai) as [c|];
    try apply Hvia;
    destruct (String.eqb (ai_model svc) "Gemini"), (gemini_client ai) as [c'|];
    try apply Hvia; exact Hnone.
Qed.

Lemma batch_phase_result svc words lang h :
  (forall w, is_Some ((batch_phase svc words lang h).1 !! w) -> w ∈ words)
  /\ cache_keeps (translation_cache h) (batch_phase svc words lang h).2.
Proof.
  assert (cache_keeps (translation_cache h) h) as Hself by (by intros k v).
  assert ((forall w, is_Some ((ret (∅ : gmap string string) h).1 !! w) -> w ∈ words)
          /\ cache_keeps (translation_cache h) (ret (∅ : gmap string string) h).2)
    as Hnone.
  { split; [|done]. intros w Hw. simpl in Hw. rewrite lookup_empty in Hw. by destruct Hw. }
  unfold batch_phase.
  destruct (ai_service svc) as [ai|]; [|exact Hnone].
  destruct (negb _ && _); [|exact Hnone].
  unfold bind, get_cache. simpl.
  destruct (uncached svc lang (translation_cache h) words) as [|u us] eqn:Hun;
    [exact Hnone|].
  destruct (batch_translate_result svc ai (u :: us) lang (translation_cache h) h)
    as [Hkeys Hkeep].
  split.
  - intros w Hw. apply Hkeys in Hw. rewrite <- Hun in Hw.
    unfold uncached in Hw. by apply list_elem_of_In, filter_In in Hw as [?%list_elem_of_In _].
  - apply Hkeep; [|done]. intros w Hw. rewrite <- Hun in Hw.
    unfold uncached in Hw. apply list_elem_of_In, filter_In in Hw as [_ Hw].
    by apply bool_decide_eq_true in Hw.
Qed.

Lemma translate_rest_result svc lang c0 words : forall tr h,
  (forall w, is_Some ((translate_rest svc lang words tr h).1 !! w)
             <-> is_Some (tr !! w) \/ w ∈ words)
  /\ (cache_keeps c0 h -> cache_keeps c0 (translate_rest svc lang words tr h).2).
Proof.
  induction words as [|x words IH]; intros tr h; simpl.
  { split; [|done]. intros w. split; [by left|].
    intros [?|Hw]; [done|by apply elem_of_nil in Hw]. }
  destruct (tr !! x) as [vx|] eqn:Hx.
  - destruct (IH tr h) as [Hkeys Hkeep]. split; [|done].
    intros w. rewrite Hkeys. split.
    + intros [?|?]; [by left|right; by apply list_elem_of_further].
    + intros [?|Hw]; [by left|].
      apply elem_of_cons in Hw as [->|?]; [left; by rewrite Hx|by right].
  - unfold bind.
    pose proof (translate_word_keeps svc x lang c0 h) as Hstep.
    destruct (translate_word svc x lang h) as [t h1]. simpl in Hstep.
    destruct (IH (<[x := t]> tr) h1) as [Hkeys Hkeep].
    split; [|by intros ?; apply Hkeep, Hstep].
    intros w. rewrite Hkeys. destruct (decide (x = w)) as [->|Hne].
    + rewrite lookup_insert_eq. split; [intros _|intros _; left; by eexists].
      right. apply list_elem_of_here.
    + rewrite lookup_insert_ne by done. rewrite elem_of_cons.
      split; [intros [?|?]; [by left|by right; right]|].
      intros [?|[?|?]]; [by left|congruence|by right].
Qed.

Lemma translate_batch_phases svc words lang h :
  translate_batch svc words lang h
  = translate_rest svc lang words (batch_phase svc words lang h).1
      (batch_phase svc words lang h).2.
Proof.
  change (translate_batch svc words lang h)
    with (bind (batch_phase svc words lang)
               (fun tr => translate_rest svc lang words tr) h).
  unfold bind. by destruct (batch_phase svc words lang h).
Qed.

(** X15: the mapping [translate_batch] returns has an entry for every word it
    was given, and for no other word. *)
Theorem translate_batch_covers_words (svc : TranslationService)
    (words : list string) (lang : string) (h : Heap) (w : string) :
  is_Some ((translate_batch svc words lang h).1 !! w) <-> w ∈ words.
Proof.
  rewrite translate_batch_phases.
  destruct (translate_rest_result svc lang ∅ words
              (batch_phase svc words lang h).1 (batch_phase svc words lang h).2)
    as [Hkeys _].
  rewrite Hkeys. split; [|by right].
  intros [Hw|?]; [|done]. by apply (batch_phase_result svc words lang h).
Qed.

(** X16: [translate_batch] keeps every entry the cache held before the call:
    it neither removes a cached translation nor writes over one. *)
Theorem translate_batch_keeps_cache (svc : TranslationService)
    (words : list string) (lang : string) (h : Heap) (k v : string) :
  translation_cache h !! k = Some v ->
  translation_cache (translate_batch svc words lang h).2 !! k = Some v.
Proof.
  revert k v. change (cache_keeps (translation_cache h) (translate_batch svc words lang h).2).
  rewrite translate_batch_phases.
  apply translate_rest_result, batch_phase_result.
Qed.

End CacheInvariants.

Section CacheReuse.
Context {P : PyStr}.

Lemma store_lines_coherent svc lang pairs : forall tr h,
  coherent svc lang tr h ->
  coherent svc lang (store_lines svc lang pairs tr h).1
                    (store_lines svc lang pairs tr h).2.
Proof.
  induction pairs as [|[x line] pairs IH]; intros tr h Hco; simpl; [done|].
  destruct (truthy (strip line)); [|by apply IH].
  unfold bind, put_cache. simpl. apply IH.
  intros w v. simpl. destruct (decide (x = w)) as [->|Hne].
  - rewrite !lookup_insert_eq. done.
  - rewrite lookup_insert_ne by done.
    rewrite lookup_insert_ne; [apply Hco|].
    intros Hk. by apply cache_key_inj in Hk.
Qed.

Lemma empty_coherent svc lang h : coherent svc lang ∅ h.
Proof. intros w v Hw. by rewrite lookup_empty in Hw. Qed.

Lemma batch_phase_coherent svc words lang h :
  coherent svc lang (batch_phase svc words lang h).1 (batch_phase svc words lang h).2.
Proof.
  assert (forall p c words', coherent svc lang (batch_via svc p c words' lang h).1
                                              (batch_via svc p c words' lang h).2)
    as Hvia.
  { intros p c words'. unfold batch_via, bind, external. simpl.
    destruct (c (calls h) (BatchReq words' lang)); [|apply empty_coherent].
    apply store_lines_coherent, empty_coherent. }
  unfold batch_phase.
  destruct (ai_service svc) as [ai|]; [|apply empty_coherent].
  destruct (negb _ && _); [|apply empty_coherent].
  unfold bind, get_cache. simpl.
  destruct (uncached svc lang (translation_cache h) words) as [|u us];
    [apply empty_coherent|].
  unfold _batch_translate_with_ai.
  destruct (String.eqb (ai_model svc) "Claude"), (claude_client ai) as [c|];
    try apply Hvia;
    destruct (String.eqb (ai_model svc) "Gemini"), (gemini_client ai) as [c'|];
    try apply Hvia; apply empty_coherent.
Qed.

Lemma translate_rest_coherent svc lang words : forall tr h,
  caching svc = true -> coherent svc lang tr h ->
  coherent svc lang (translate_rest svc lang words tr h).1
                    (translate_rest svc lang words tr h).2.
Proof.
  induction words as [|x words IH]; intros tr h Hon Hco; simpl; [done|].
  destruct (tr !! x) as [vx|] eqn:Hx; [by apply IH|].
  unfold bind.
  destruct (translate_word_cases svc x lang h)
    as [(v & Hhit & ->) | [(_ & Hoff & _) | (_ & _ & v & new & _ & ->)]];
    [|congruence|]; apply IH; try done.
  - intros w v'. destruct (decide (x = w)) as [->|Hne].
    + rewrite lookup_insert_eq. by intros [= <-].
    + rewrite lookup_insert_ne by done. apply Hco.
  - intros w v'. simpl. destruct (decide (x = w)) as [->|Hne].
    + rewrite !lookup_insert_eq. done.
    + rewrite lookup_insert_ne by done.
      rewrite lookup_insert_ne; [apply Hco|].
      intros Hk. by apply cache_key_inj in Hk.
Qed.

Lemma translate_rest_off svc lang words : forall tr h,
  caching svc = false -> (translate_rest svc lang words tr h).2 = h.
Proof.
  induction words as [|x words IH]; intros tr h Hoff; simpl; [done|].
  destruct (tr !! x); [by apply IH|]. unfold bind.
  destruct (translate_word_cases svc x lang h)
    as [(v & _ & ->) | [(_ & _ & ->) | (_ & Hon & _)]]; [| |congruence];
    by apply IH.
Qed.

Lemma batch_phase_off svc words lang h :
  caching svc = false -> batch_phase svc words lang h = (∅, h).
Proof.
  unfold caching, batch_phase. destruct (ai_service svc); [|done].
  by intros ->.
Qed.

(** With every word cached the loop only reads: the heap stays as it is and
    each word not yet in the mapping gets its cached translation. *)
Lemma translate_rest_cached svc lang words : forall tr h,
  (forall w, w ∈ words -> is_Some (translation_cache h !! cache_key svc w lang)) ->
  (translate_rest svc lang words tr h).2 = h
  /\ forall w, (translate_rest svc lang words tr h).1 !! w
               = match tr !! w with
                 | Some v => Some v
                 | None => if bool_decide (w ∈ words)
                           then translation_cache h !! cache_key svc w lang
                           else None
                 end.
Proof.
  induction words as [|x words IH]; intros tr h Hall; cbn [translate_rest].
  { split; [done|]. intros w. cbn [ret fst]. destruct (tr !! w); [done|].
    by rewrite bool_decide_eq_false_2 by apply not_elem_of_nil. }
  assert (forall w, w ∈ words ->
                    is_Some (translation_cache h !! cache_key svc w lang)) as Hrest
    by (intros w Hw; by apply Hall, list_elem_of_further).
  destruct (tr !! x) as [vx|] eqn:Hx.
  - destruct (IH tr h Hrest) as [Hh Hmap]. split; [done|].
    intros w. rewrite Hmap. destruct (tr !! w) eqn:Hw; [done|].
    destruct (decide (w = x)) as [->|Hne]; [congruence|].
    destruct (decide (w ∈ words)).
    + by rewrite !bool_decide_eq_true_2 by (done || by apply list_elem_of_further).
    + rewrite !bool_decide_eq_false_2; [done| |done].
      by intros [?|?]%elem_of_cons.
  - unfold bind. destruct (Hall x) as [v Hv]; [apply list_elem_of_here|].
    destruct (translate_word_cases svc x lang h)
      as [(v' & Hhit & ->) | [(Hmiss & _) | (Hmiss & _)]]; [|congruence..].
    assert (v' = v) as -> by congruence.
    destruct (IH (<[x := v]> tr) h Hrest) as [Hh Hmap]. split; [done|].
    intros w. rewrite Hmap. destruct (decide (x = w)) as [->|Hne].
    + rewrite lookup_insert_eq, Hx.
      by rewrite bool_decide_eq_true_2 by apply list_elem_of_here.
    + rewrite lookup_insert_ne by done. destruct (tr !! w); [done|].
      destruct (decide (w ∈ words)).
      * by rewrite !bool_decide_eq_true_2 by (done || by apply list_elem_of_further).
      * rewrite !bool_decide_eq_false_2; [done| |done].
        intros [?|?]%elem_of_cons; congruence.
Qed.

(** X17: a second [translate_batch] for the same words and language, run on
    the heap the first one left, sends no request, changes nothing and
    returns the same mapping. *)
Theorem translate_batch_again (svc : TranslationService) (words : list string)
    (lang : string) (h : Heap) :
  translate_batch svc words lang (translate_batch svc words lang h).2
  = translate_batch svc words lang h.
Proof.
  destruct (caching svc) eqn:Hmode.
  2:{ assert ((translate_batch svc words lang h).2 = h) as ->; [|done].
      rewrite translate_batch_phases, (batch_phase_off _ _ _ _ Hmode).
      by apply translate_rest_off. }
  assert (coherent svc lang (translate_batch svc words lang h).1
                            (translate_batch svc words lang h).2) as Hco.
  { rewrite translate_batch_phases.
    apply translate_rest_coherent; [done|apply batch_phase_coherent]. }
  assert (forall w, is_Some ((translate_batch svc words lang h).1 !! w) <-> w ∈ words)
    as Hdom.
  { intros w. rewrite translate_batch_phases.
    destruct (translate_rest_result svc lang ∅ words
                (batch_phase svc words lang h).1 (batch_phase svc words lang h).2)
      as [Hkeys _].
    rewrite Hkeys. split; [|by right].
    intros [Hw|?]; [|done]. by apply (batch_phase_result svc words lang h). }
  destruct (translate_batch svc words lang h) as [tr1 h1] eqn:Hfirst. simpl in *.
  assert (forall w, w ∈ words ->
                    is_Some (translation_cache h1 !! cache_key svc w lang)) as Hall.
  { intros w Hw. apply Hdom in Hw as [v Hv]. exists v. by apply Hco. }
  assert (batch_phase svc words lang h1 = (∅, h1)) as Hphase.
  { unfold batch_phase. destruct (ai_service svc) as [ai|]; [|done].
    destruct (negb _ && _); [|done]. unfold bind, get_cache. simpl.
    destruct (uncached svc lang (translation_cache h1) words) as [|u us] eqn:Hun;
      [done|].
    assert (u ∈ uncached svc lang (translation_cache h1) words) as Hu
      by (rewrite Hun; apply list_elem_of_here).
    unfold uncached in Hu. apply list_elem_of_In, filter_In in Hu as [Hu Hnone].
    apply bool_decide_eq_true in Hnone.
    destruct (Hall u) as [v Hv]; [by apply list_elem_of_In|congruence]. }
  rewrite translate_batch_phases, Hphase. simpl.
  destruct (translate_rest_cached svc lang words ∅ h1 Hall) as [Hh Hmap].
  destruct (translate_rest svc lang words ∅ h1) as [tr2 h2]. simpl in *.
  subst h2. f_equal. apply map_eq. intros w. rewrite Hmap, lookup_empty.
  destruct (decide (w ∈ words)) as [Hw|Hw].
  - rewrite bool_decide_eq_true_2 by done.
    apply Hdom in Hw as [v Hv]. rewrite Hv. by apply Hco.
  - rewrite bool_decide_eq_false_2 by done.
    destruct (tr1 !! w) eqn:Hv; [|done].
    exfalso. apply Hw, Hdom. by eexists.
Qed.

End CacheReuse.

Section CacheKeys.
Context {P : PyStr}.

(** X18: for one language and model distinct words have distinct cache keys;
    but the key is the plain concatenation with "_", so the key of word
    [w_x] for language [l] is the key of word [w] for language [x_l], and a
    translation cached for the one is returned for the other without a
    request. *)
Theorem cache_key_collisions (svc : TranslationService) (w x l : string) :
  (forall w1 w2, cache_key svc w1 l = cache_key svc w2 l -> w1 = w2)
  /\ cache_key svc (w +:+ "_" +:+ x) l = cache_key svc w (x +:+ "_" +:+ l)
  /\ forall h v,
       translation_cache h !! cache_key svc (w +:+ "_" +:+ x) l = Some v ->
       translate_word svc w (x +:+ "_" +:+ l) h = (v, h).
Proof.
  assert (cache_key svc (w +:+ "_" +:+ x) l = cache_key svc w (x +:+ "_" +:+ l))
    as Hsame.
  { unfold cache_key. by rewrite !append_assoc. }
  split; [intros w1 w2; apply cache_key_inj|]. split; [done|].
  intros h v Hv. rewrite Hsame in Hv.
  destruct (translate_word_cases svc w (x +:+ "_" +:+ l) h)
    as [(v' & Hhit & ->) | [(Hmiss & _) | (Hmiss & _)]]; congruence.
Qed.

End CacheKeys.

(** * Properties of create_word_lists *)

Section WordLists.
Context {P : PyStr}.

Lemma level_rows_entries svc lang translations level words : forall h,
  map row_entry (level_rows svc lang translations level words h).1
  = map (fun w => (w_original w, w_lemma w, w_pos w, level)) words.
Proof.
  induction words as [|w words IH]; intros h; [done|].
  cbn [level_rows]. unfold bind.
  destruct (translate_word svc (w_lemma w) lang h) as [single h1].
  specialize (IH h1).
  destruct (level_rows svc lang translations level words h1) as [rows h2].
  simpl in *. by rewrite IH.
Qed.

Lemma all_rows_entries svc lang translations buckets : forall h,
  map row_entry (all_rows svc lang translations buckets h).1 = bucket_entries buckets.
Proof.
  induction buckets as [|[level words] buckets IH]; intros h; [done|].
  cbn [all_rows]. unfold bind.
  pose proof (level_rows_entries svc lang translations level words h) as Hrows.
  destruct (level_rows svc lang translations level words h) as [rows h1].
  specialize (IH h1).
  destruct (all_rows svc lang translations buckets h1) as [more h2].
  simpl in *. unfold bucket_entries in *. simpl. by rewrite map_app, Hrows, IH.
Qed.

(** X19: the word list has one row for each entry of the buckets, bucket by
    bucket and in each bucket's order, carrying the entry's surface form,
    lemma and part of speech and the bucket's tier; the caller's cache is
    left as it was. *)
Theorem create_word_lists_rows (a : GermanLanguageAnalyzer) (r : Analysis)
    (lang : string) (ai : option AIService) (model : string) (h : Heap) :
  map row_entry (create_word_lists a r lang ai model h).1
  = bucket_entries (words_above_level r)
  /\ translation_cache (create_word_lists a r lang ai model h).2
     = translation_cache h.
Proof.
  unfold create_word_lists, bind.
  set (svc := {| ai_service := ai; ai_model := model |}).
  set (h0 := {| translation_cache := ∅; calls := calls h |}).
  destruct ((match words_to_replace_of r with
             | [] => ret ∅
             | _ :: _ => translate_batch svc (words_to_replace_of r) lang
             end) h0) as [translations h1].
  pose proof (all_rows_entries svc lang translations (words_above_level r) h1) as Hrows.
  destruct (all_rows svc lang translations (words_above_level r) h1) as [rows h2].
  done.
Qed.

Lemma translate_word_truthy svc word lang h :
  all_truthy (translation_cache h) ->
  truthy (translate_word svc word lang h).1 = true
  /\ all_truthy (translation_cache (translate_word svc word lang h).2).
Proof.
  intros Hcache.
  destruct (translate_word_cases svc word lang h)
    as [(v & Hhit & ->) | [(_ & _ & ->) | (_ & _ & v & new & Hv & ->)]]; simpl.
  - split; [by eapply Hcache|done].
  - split; [apply mock_translation_truthy|done].
  - split; [done|]. intros k v'. destruct (decide (cache_key svc word lang = k)) as [<-|Hne].
    + rewrite lookup_insert_eq. by intros [= <-].
    + rewrite lookup_insert_ne by done. apply Hcache.
Qed.

Lemma store_lines_truthy svc lang pairs : forall tr h,
  all_truthy tr -> all_truthy (translation_cache h) ->
  all_truthy (store_lines svc lang pairs tr h).1
  /\ all_truthy (translation_cache (store_lines svc lang pairs tr h).2).
Proof.
  induction pairs as [|[x line] pairs IH]; intros tr h Htr Hcache; simpl; [done|].
  destruct (truthy (strip line)) eqn:Hline; [|by apply IH].
  unfold bind, put_cache. simpl. apply IH.
  - intros k v. destruct (decide (x = k)) as [->|Hne].
    + rewrite lookup_insert_eq. by intros [= <-].
    + rewrite lookup_insert_ne by done. apply Htr.
  - intros k v. simpl. destruct (decide (cache_key svc x lang = k)) as [<-|Hne].
    + rewrite lookup_insert_eq. by intros [= <-].
    + rewrite lookup_insert_ne by done. apply Hcache.
Qed.

Lemma empty_truthy : all_truthy ∅.
Proof. intros k v Hk. by rewrite lookup_empty in Hk. Qed.

Lemma batch_phase_truthy svc words lang h :
  all_truthy (translation_cache h) ->
  all_truthy (batch_phase svc words lang h).1
  /\ all_truthy (translation_cache (batch_phase svc words lang h).2).
Proof.
  intros Hcache.
  assert (forall p c words',
            all_truthy (batch_via svc p c words' lang h).1
            /\ all_truthy (translation_cache (batch_via svc p c words' lang h).2))
    as Hvia.
  { intros p c words'. unfold batch_via, bind, external. simpl.
    destruct (c (calls h) (BatchReq words' lang)); [|split; [apply empty_truthy|done]].
    apply store_lines_truthy; [apply empty_truthy|done]. }
  assert (all_truthy (ret (∅ : gmap string string) h).1
          /\ all_truthy (translation_cache (ret (∅ : gmap string string) h).2))
    as Hnone by (split; [apply empty_truthy|done]).
  unfold batch_phase.
  destruct (ai_service svc) as [ai|]; [|exact Hnone].
  destruct (negb _ && _); [|exact Hnone].
  unfold bind, get_cache. simpl.
  destruct (uncached svc lang (translation_cache h) words) as [|u us];
    [exact Hnone|].
  unfold _batch_translate_with_ai.
  destruct (String.eqb (ai_model svc) "Claude"), (claude_client ai) as [c|];
    try apply Hvia;
    destruct (String.eqb (ai_model svc) "Gemini"), (gemini_client ai) as [c'|];
    try apply Hvia; exact Hnone.
Qed.

Lemma translate_rest_truthy svc lang words : forall tr h,
  all_truthy tr -> all_truthy (translation_cache h) ->
  all_truthy (translate_rest svc lang words tr h).1
  /\ all_truthy (translation_cache (translate_rest svc lang words tr h).2).
Proof.
  induction words as [|x words IH]; intros tr h Htr Hcache; simpl; [done|].
  destruct (tr !! x); [by apply IH|]. unfold bind.
  destruct (translate_word_truthy svc x lang h Hcache) as [Hv Hcache'].
  destruct (translate_word svc x lang h) as [v h1]. simpl in *.
  apply IH; [|done]. intros k v'. destruct (decide (x = k)) as [->|Hne].
  - rewrite lookup_insert_eq. by intros [= <-].
  - rewrite lookup_insert_ne by done. apply Htr.
Qed.

Lemma level_rows_truthy svc lang translations level words : forall h,
  all_truthy translations -> all_truthy (translation_cache h) ->
  Forall (fun row => truthy (translation row) = true)
         (level_rows svc lang translations level words h).1
  /\ all_truthy (translation_cache (level_rows svc lang translations level words h).2).
Proof.
  induction words as [|w words IH]; intros h Htr Hcache; [by split|].
  cbn [level_rows]. unfold bind.
  destruct (translate_word_truthy svc (w_lemma w) lang h Hcache) as [Hv Hcache'].
  destruct (translate_word svc (w_lemma w) lang h) as [single h1]. simpl in *.
  destruct (IH h1 Htr Hcache') as [Hrows Hcache''].
  destruct (level_rows svc lang translations level words h1) as [rows h2].
  simpl in *. split; [|done]. constructor; [|done]. simpl.
  destruct (translations !! w_lemma w) as [t|] eqn:Ht; simpl; [by eapply Htr|done].
Qed.

Lemma all_rows_truthy svc lang translations buckets : forall h,
  all_truthy translations -> all_truthy (translation_cache h) ->
  Forall (fun row => truthy (translation row) = true)
         (all_rows svc lang translations buckets h).1.
Proof.
  induction buckets as [|[level words] buckets IH]; intros h Htr Hcache;
    [by constructor|].
  cbn [all_rows]. unfold bind.
  destruct (level_rows_truthy svc lang translations level words h Htr Hcache)
    as [Hrows Hcache'].
  destruct (level_rows svc lang translations level words h) as [rows h1].
  simpl in *. specialize (IH h1 Htr Hcache').
  destruct (all_rows svc lang translations buckets h1) as [more h2].
  simpl in *. by apply Forall_app.
Qed.

(** X20: no row of the word list has an empty translation, whatever the
    service answers and also when it is missing or its calls raise. *)
Theorem create_word_lists_translated (a : GermanLanguageAnalyzer) (r : Analysis)
    (lang : string) (ai : option AIService) (model : string) (h : Heap) :
  Forall (fun row => translation row <> "")
         (create_word_lists a r lang ai model h).1.
Proof.
  assert (Forall (fun row => truthy (translation row) = true)
                 (create_word_lists a r lang ai model h).1) as Hrows.
  { unfold create_word_lists, bind.
    set (svc := {| ai_service := ai; ai_model := model |}).
    set (h0 := {| translation_cache := ∅; calls := calls h |}).
    assert (all_truthy (translation_cache h0)) as Hfresh by apply empty_truthy.
    assert (all_truthy
              ((match words_to_replace_of r with
                | [] => ret ∅
                | _ :: _ => translate_batch svc (words_to_replace_of r) lang
                end) h0).1
            /\ all_truthy
                 (translation_cache
                    ((match words_to_replace_of r with
                      | [] => ret ∅
                      | _ :: _ => translate_batch svc (words_to_replace_of r) lang
                      end) h0).2)) as [Htr Hcache].
    { destruct (words_to_replace_of r) as [|w ws]; [split; [apply empty_truthy|done]|].
      rewrite translate_batch_phases.
      destruct (batch_phase_truthy svc (w :: ws) lang h0 Hfresh) as [H1 H2].
      by apply translate_rest_truthy. }
    destruct ((match words_to_replace_of r with
               | [] => ret ∅
               | _ :: _ => translate_batch svc (words_to_replace_of r) lang
               end) h0) as [translations h1].
    simpl in Htr, Hcache.
    pose proof (all_rows_truthy svc lang translations (words_above_level r) h1 Htr Hcache)
      as Hall.
    destruct (all_rows svc lang translations (words_above_level r) h1) as [rows h2].
    done. }
  eapply Forall_impl; [exact Hrows|]. intros row Hrow.
  unfold truthy in Hrow. by apply negb_true_iff, String.eqb_neq in Hrow.
Qed.

End WordLists.

(** * Properties of load_stopwords *)

Section Stopwords.
Context {P : PyStr} {O : PySet}.

Lemma add_stopword_elem sw line x :
  x ∈ add_stopword sw line
  <-> x ∈ sw
      \/ (strip line <> "" /\ String.prefix ";" (strip line) = false
          /\ x = lower (strip line)).
Proof.
  unfold add_stopword, truthy.
  destruct (String.eqb_spec (strip line) "") as [Hempty|Hne]; simpl.
  { split; [by left|]. intros [?|(? & _)]; done. }
  destruct (String.prefix ";" (strip line)); simpl.
  { split; [by left|]. intros [?|(_ & ? & _)]; done. }
  rewrite elem_of_union, elem_of_singleton. split.
  - intros [?| ->]; [by left|by right].
  - intros [?|(_ & _ & ->)]; [by left|by right].
Qed.

Lemma add_stopwords_elem lines : forall sw x,
  x ∈ fold_left add_stopword lines sw
  <-> x ∈ sw
      \/ exists line, line ∈ lines /\ strip line <> ""
                      /\ String.prefix ";" (strip line) = false
                      /\ x = lower (strip line).
Proof.
  induction lines as [|l lines IH]; intros sw x; simpl.
  { split; [by left|]. intros [?|(line & Hin & _)]; [done|by apply elem_of_nil in Hin]. }
  rewrite IH, add_stopword_elem. split.
  - intros [[?|?]|(line & Hin & ?)]; [by left| |].
    + right. exists l. split; [apply list_elem_of_here|done].
    + right. exists line. split; [by apply list_elem_of_further|done].
  - intros [?|(line & Hin & Hline)]; [by left; left|].
    apply elem_of_cons in Hin as [->|Hin]; [by left; right|].
    right. by exists line.
Qed.

(** X21: after [load_stopwords] the stopwords are those held before together
    with the lowercased, trimmed form of every line of the file that is not
    blank and does not start with ";"; nothing is removed, and a file that
    cannot be opened changes nothing. *)
Theorem load_stopwords_elements (a : GermanLanguageAnalyzer) (files : TextFiles)
    (filepath x : string) :
  x ∈ stopwords (load_stopwords a files filepath)
  <-> x ∈ stopwords a
      \/ exists lines line,
           files filepath = Some lines /\ line ∈ lines /\ strip line <> ""
           /\ String.prefix ";" (strip line) = false
           /\ x = lower (strip line).
Proof.
  unfold load_stopwords. destruct (files filepath) as [lines|]; cbn [stopwords].
  - rewrite add_stopwords_elem. split.
    + intros [?|(line & ?)]; [by left|]. right. by exists lines, line.
    + intros [?|(lines' & line & [= <-] & ?)]; [by left|]. right. by exists line.
  - split; [by left|]. intros [?|(lines & line & ? & _)]; done.
Qed.

(** X22: a word listed in the stopword file is not considered by an
    analysis with the loaded analyzer, whatever the case of the line and of
    the token's lemma: the considered words, the buckets and the count are
    those of the text without the token. *)
Theorem listed_stopword_not_considered (a : GermanLanguageAnalyzer)
    (files : TextFiles) (filepath : string) (lines : list string)
    (line target : string) (pre post : Doc) (token : Token) :
  files filepath = Some lines ->
  line ∈ lines ->
  strip line <> "" ->
  String.prefix ";" (strip line) = false ->
  lower (effective_lemma token) = lower (strip line) ->
  considered (load_stopwords a files filepath) token = false
  /\ all_words (analyze_doc (load_stopwords a files filepath) (pre ++ token :: post) target)
     = all_words (analyze_doc (load_stopwords a files filepath) (pre ++ post) target)
  /\ words_above_level
       (analyze_doc (load_stopwords a files filepath) (pre ++ token :: post) target)
     = words_above_level
         (analyze_doc (load_stopwords a files filepath) (pre ++ post) target)
  /\ total_words
       (analyze_doc (load_stopwords a files filepath) (pre ++ token :: post) target)
     = total_words (analyze_doc (load_stopwords a files filepath) (pre ++ post) target).
Proof.
  intros Hfile Hline Hne Hcomment Hlemma.
  assert (lower (effective_lemma token) ∈ stopwords (load_stopwords a files filepath))
    as Hstop.
  { unfold load_stopwords. rewrite Hfile. cbn [stopwords].
    apply add_stopwords_elem. right. by exists line. }
  split.
  - unfold considered. rewrite (bool_decide_eq_true_2 _ Hstop). simpl.
    by rewrite andb_false_r.
  - apply skipped_token_absent, excluded_token_skipped.
    by apply elem_of_union_l.
Qed.

End Stopwords.

(** * The two modes agree on what is above the level *)

Section ReportedWords.
Context {P : PyStr} {O : PySet}.

(** X23: every entry of a bucket comes from a token of the text that the
    fallback rendering replaces by the placeholder: what the analysis reports
    as above the level is redacted in the leveled text. *)
Theorem reported_words_are_redacted (a : GermanLanguageAnalyzer) (d : Doc)
    (target lv : string) (w : WordInfo) :
  w ∈ bucket_of lv (words_above_level (analyze_doc a d target)) ->
  exists token, token ∈ d /\ w = word_info token
                /\ get_word_level a (effective_lemma token) = Some lv
                /\ leveled_token a target token = "[...]".
Proof.
  unfold analyze_doc. cbn [words_above_level].
  rewrite analyze_tokens_bucket. simpl.
  intros Hw. apply list_elem_of_fmap in Hw as (token & -> & Hin).
  apply list_elem_of_In, filter_In in Hin as [Hin Hflag].
  apply andb_true_iff in Hflag as [_ Hfiled].
  exists token. split; [by apply list_elem_of_In|]. split; [done|].
  unfold filed_above in Hfiled. unfold leveled_token.
  destruct (get_word_level a (effective_lemma token)) as [l|]; [|done].
  apply andb_true_iff in Hfiled as [Hfiled Habove].
  apply andb_true_iff in Hfiled as [Heq Htruthy].
  apply String.eqb_eq in Heq as ->. by rewrite Htruthy, Habove.
Qed.

End ReportedWords.

(** * Reading the reply to a batched request *)

Section BatchReply.
Context {P : PyStr}.

Lemma store_lines_untouched svc lang pairs : forall tr h w,
  w ∉ map fst pairs ->
  (store_lines svc lang pairs tr h).1 !! w = tr !! w
  /\ translation_cache (store_lines svc lang pairs tr h).2 !! cache_key svc w lang
     = translation_cache h !! cache_key svc w lang.
Proof.
  induction pairs as [|[x line] pairs IH]; intros tr h w Hw; simpl; [done|].
  simpl in Hw. apply not_elem_of_cons in Hw as [Hne Hw].
  destruct (truthy (strip line)); [|by apply IH].
  unfold bind, put_cache. simpl.
  destruct (IH (<[x := strip line]> tr)
              {| translation_cache :=
                   <[cache_key svc x lang := strip line]> (translation_cache h);
                 calls := calls h |} w Hw) as [-> ->].
  simpl. rewrite lookup_insert_ne by done. split; [done|].
  rewrite lookup_insert_ne; [done|]. intros Hk. by apply cache_key_inj in Hk.
Qed.

Lemma store_lines_by_position svc lang words : forall translation_lines tr h n w,
  NoDup words -> words !! n = Some w ->
  (store_lines svc lang (zip words translation_lines) tr h).1 !! w
  = match line_at translation_lines n with Some t => Some t | None => tr !! w end
  /\ translation_cache (store_lines svc lang (zip words translation_lines) tr h).2
       !! cache_key svc w lang
     = match line_at translation_lines n with
       | Some t => Some t
       | None => translation_cache h !! cache_key svc w lang
       end.
Proof.
  induction words as [|x words IH]; intros lines tr h n w Hnd Hn; [done|].
  apply NoDup_cons in Hnd as [Hx Hnd].
  destruct lines as [|line lines].
  { unfold line_at. rewrite lookup_nil. done. }
  destruct n as [|n]; cbn [zip zip_with store_lines].
  - injection Hn as <-. unfold line_at. cbn [lookup list_lookup].
    assert (x ∉ map fst (zip words lines)) as Hout
      by (intros Hin; by apply Hx, (zip_fst_subset words lines)).
    destruct (truthy (strip line)).
    + unfold bind, put_cache. simpl.
      destruct (store_lines_untouched svc lang (zip words lines)
                  (<[x := strip line]> tr)
                  {| translation_cache :=
                       <[cache_key svc x lang := strip line]> (translation_cache h);
                     calls := calls h |} x Hout) as [-> ->].
      simpl. by rewrite !lookup_insert_eq.
    + by apply store_lines_untouched.
  - simpl in Hn.
    assert (x <> w) as Hne.
    { intros ->. apply Hx. by eapply list_elem_of_lookup_2. }
    change (line_at (line :: lines) (S n)) with (line_at lines n).
    destruct (truthy (strip line)).
    + unfold bind, put_cache. simpl.
      destruct (IH lines (<[x := strip line]> tr)
                  {| translation_cache :=
                       <[cache_key svc x lang := strip line]> (translation_cache h);
                     calls := calls h |} n w Hnd Hn) as [-> ->].
      simpl. rewrite lookup_insert_ne by done.
      rewrite lookup_insert_ne; [done|]. intros Hk. by apply cache_key_inj in Hk.
    + by apply IH.
Qed.

(** X24: when the batched request is answered, the reply is read by
    position: the word at position [n] of a duplicate-free list gets line
    [n] of the trimmed reply, trimmed, as its translation, stored in the
    cache under its key; a word whose line is missing or blank gets no
    translation from the batch and its cache entry is left as it was. *)
Theorem batch_reply_by_position (svc : TranslationService) (ai : AIService)
    (c : Client) (words : list string) (lang reply : string) (h : Heap)
    (n : nat) (w : string) :
  (ai_model svc = "Claude" /\ claude_client ai = Some c)
  \/ (ai_model svc = "Gemini" /\ gemini_client ai = Some c) ->
  c (calls h) (BatchReq words lang) = Some reply ->
  NoDup words ->
  words !! n = Some w ->
  (_batch_translate_with_ai svc ai words lang h).1 !! w
  = line_at (split_lines (strip reply)) n
  /\ translation_cache (_batch_translate_with_ai svc ai words lang h).2
       !! cache_key svc w lang
     = match line_at (split_lines (strip reply)) n with
       | Some t => Some t
       | None => translation_cache h !! cache_key svc w lang
       end.
Proof.
  intros Hsel Hreply Hnd Hn.
  assert (forall p,
    (batch_via svc p c words lang h).1 !! w = line_at (split_lines (strip reply)) n
    /\ translation_cache (batch_via svc p c words lang h).2 !! cache_key svc w lang
       = match line_at (split_lines (strip reply)) n with
         | Some t => Some t
         | None => translation_cache h !! cache_key svc w lang
         end) as Hvia.
  { intros p. unfold batch_via, bind, external. simpl. rewrite Hreply.
    destruct (store_lines_by_position svc lang words (split_lines (strip reply)) ∅
                {| translation_cache := translation_cache h;
                   calls := calls h ++
                     [{| provider := p; request := BatchReq words lang;
                         cache_then := translation_cache h |}] |} n w Hnd Hn)
      as [-> ->].
    rewrite lookup_empty. by destruct (line_at _ _). }
  unfold _batch_translate_with_ai.
  destruct Hsel as [[-> ->] | [-> ->]]; simpl; [apply Hvia|].
  destruct (claude_client ai); apply Hvia.
Qed.

End BatchReply.

(** * Working without a service *)

Section Offline.
Context {P : PyStr}.

Lemma translate_word_offline svc word lang h :
  caching svc = false ->
  translate_word svc word lang h
  = (default (mock_translation word lang)
       (translation_cache h !! cache_key svc word lang), h).
Proof.
  intros Hoff.
  destruct (translate_word_cases svc word lang h)
    as [(v & Hhit & ->) | [(Hmiss & _ & ->) | (_ & Hon & _)]]; [| |congruence].
  - by rewrite Hhit.
  - by rewrite Hmiss.
Qed.

Lemma translate_rest_offline svc lang words : forall tr h,
  caching svc = false ->
  (translate_rest svc lang words tr h).2 = h
  /\ forall w, (translate_rest svc lang words tr h).1 !! w
               = match tr !! w with
                 | Some v => Some v
                 | None =>
                     if bool_decide (w ∈ words)
                     then Some (default (mock_translation w lang)
                                  (translation_cache h !! cache_key svc w lang))
                     else None
                 end.
Proof.
  induction words as [|x words IH]; intros tr h Hoff; cbn [translate_rest].
  { split; [done|]. intros w. cbn [ret fst]. destruct (tr !! w); [done|].
    by rewrite bool_decide_eq_false_2 by apply not_elem_of_nil. }
  destruct (tr !! x) as [vx|] eqn:Hx.
  - destruct (IH tr h Hoff) as [Hh Hmap]. split; [done|].
    intros w. rewrite Hmap. destruct (tr !! w) eqn:Hw; [done|].
    destruct (decide (w = x)) as [->|Hne]; [congruence|].
    destruct (decide (w ∈ words)).
    + by rewrite !bool_decide_eq_true_2 by (done || by apply list_elem_of_further).
    + rewrite !bool_decide_eq_false_2; [done| |done].
      by intros [?|?]%elem_of_cons.
  - unfold bind. rewrite (translate_word_offline svc x lang h Hoff).
    destruct (IH (<[x := default (mock_translation x lang)
                           (translation_cache h !! cache_key svc x lang)]> tr)
                h Hoff) as [Hh Hmap].
    split; [done|]. intros w. rewrite Hmap. destruct (decide (x = w)) as [->|Hne].
    + rewrite lookup_insert_eq, Hx.
      by rewrite bool_decide_eq_true_2 by apply list_elem_of_here.
    + rewrite lookup_insert_ne by done. destruct (tr !! w); [done|].
      destruct (decide (w ∈ words)).
      * by rewrite !bool_decide_eq_true_2 by (done || by apply list_elem_of_further).
      * rewrite !bool_decide_eq_false_2; [done| |done].
        intros [?|?]%elem_of_cons; congruence.
Qed.

(** X25: without a service, or with the model "None", [translate_batch]
    sends nothing and leaves the heap as it is; each word gets the
    translation cached under its key, or else the mock translation made of
    the word and the language's first two letters in capitals. *)
Theorem translate_batch_offline (svc : TranslationService) (words : list string)
    (lang : string) (h : Heap) :
  caching svc = false ->
  (translate_batch svc words lang h).2 = h
  /\ forall w, w ∈ words ->
       (translate_batch svc words lang h).1 !! w
       = Some (default (mock_translation w lang)
                 (translation_cache h !! cache_key svc w lang)).
Proof.
  intros Hoff.
  rewrite translate_batch_phases, (batch_phase_off _ _ _ _ Hoff). cbn [fst snd].
  destruct (translate_rest_offline svc lang words ∅ h Hoff) as [Hh Hmap].
  split; [done|]. intros w Hw.
  by rewrite Hmap, lookup_empty, bool_decide_eq_true_2.
Qed.

Lemma level_rows_offline svc lang translations level words : forall h,
  caching svc = false -> translation_cache h = ∅ ->
  (forall w v, translations !! w = Some v -> v = mock_translation w lang) ->
  (level_rows svc lang translations level words h).2 = h
  /\ Forall (fun row => translation row = mock_translation (row_lemma row) lang)
            (level_rows svc lang translations level words h).1.
Proof.
  intros h Hoff Hfresh Htr.
  induction words as [|w words IH]; [by split|].
  cbn [level_rows]. unfold bind.
  rewrite (translate_word_offline svc (w_lemma w) lang h Hoff), Hfresh, lookup_empty.
  destruct IH as [Hh Hrows].
  destruct (level_rows svc lang translations level words h) as [rows h1].
  simpl in *. split; [done|]. constructor; [|done]. simpl.
  destruct (translations !! w_lemma w) as [t|] eqn:Ht; simpl; [by apply Htr|done].
Qed.

Lemma all_rows_offline svc lang translations buckets : forall h,
  caching svc = false -> translation_cache h = ∅ ->
  (forall w v, translations !! w = Some v -> v = mock_translation w lang) ->
  (all_rows svc lang translations buckets h).2 = h
  /\ Forall (fun row => translation row = mock_translation (row_lemma row) lang)
            (all_rows svc lang translations buckets h).1.
Proof.
  intros h Hoff Hfresh Htr.
  induction buckets as [|[level words] buckets IH]; [by split|].
  cbn [all_rows]. unfold bind.
  destruct (level_rows_offline svc lang translations level words h Hoff Hfresh Htr)
    as [Hh Hrows].
  destruct (level_rows svc lang translations level words h) as [rows h1].
  simpl in *. subst h1. destruct IH as [Hh' Hmore].
  destruct (all_rows svc lang translations buckets h) as [more h2].
  simpl in *. split; [done|]. by apply Forall_app.
Qed.

(** X26: built without a service, or with the model "None", the word list
    sends no request and leaves the heap as it is, and the translation of
    every row is the mock translation of the row's lemma. *)
Theorem create_word_lists_offline (a : GermanLanguageAnalyzer) (r : Analysis)
    (lang : string) (ai : option AIService) (model : string) (h : Heap) :
  caching {| ai_service := ai; ai_model := model |} = false ->
  (create_word_lists a r lang ai model h).2 = h
  /\ Forall (fun row => translation row = mock_translation (row_lemma row) lang)
            (create_word_lists a r lang ai model h).1.
Proof.
  intros Hoff. unfold create_word_lists, bind.
  set (svc := {| ai_service := ai; ai_model := model |}) in *.
  set (h0 := {| translation_cache := ∅; calls := calls h |}).
  assert (((match words_to_replace_of r with
            | [] => ret ∅
            | _ :: _ => translate_batch svc (words_to_replace_of r) lang
            end) h0).2 = h0
          /\ forall w v,
               ((match words_to_replace_of r with
                 | [] => ret ∅
                 | _ :: _ => translate_batch svc (words_to_replace_of r) lang
                 end) h0).1 !! w = Some v -> v = mock_translation w lang)
    as [Hh Htr].
  { destruct (words_to_replace_of r) as [|x xs] eqn:Hwords.
    { split; [done|]. intros w v Hw. simpl in Hw. by rewrite lookup_empty in Hw. }
    rewrite translate_batch_phases, (batch_phase_off _ _ _ _ Hoff). cbn [fst snd].
    destruct (translate_rest_offline svc lang (x :: xs) ∅ h0 Hoff) as [Hh Hmap].
    split; [done|]. intros w v. rewrite Hmap, lookup_empty.
    destruct (bool_decide (w ∈ x :: xs)); [|done].
    simpl. rewrite lookup_empty. by intros [= <-]. }
  destruct ((match words_to_replace_of r with
             | [] => ret ∅
             | _ :: _ => translate_batch svc (words_to_replace_of r) lang
             end) h0) as [translations h1].
  simpl in Hh, Htr. subst h1.
  destruct (all_rows_offline svc lang translations (words_above_level r) h0
              Hoff eq_refl Htr) as [Hh' Hrows].
  destruct (all_rows svc lang translations (words_above_level r) h0) as [rows h2].
  simpl in *. subst h2. split; [by destruct h|done].
Qed.

End Offline.

(** * Runs of the further properties *)

Section FurtherRuns.
#[local] Existing Instance ascii_str.
#[local] Existing Instance elements_order.
#[local] Existing Instance ascii_str_laws.

(** "haus" in the demo index: a non-empty key, under A1, from the A1 file. *)
Lemma loaded_entries_wellformed_witness :
  "haus" <> "" /\ recognized "A1"
  /\ exists file, ("A1", file) ∈ file_mapping
                  /\ "haus" ∈ source_lemmas demo_fs "vocabulary" file.
Proof.
  apply (loaded_entries_wellformed (init_analyzer (fun _ => [])) demo_fs
           "vocabulary" "haus" "A1").
  - reflexivity.
  - vm_compute. reflexivity.
Defined.

Lemma stored_key_lookup_witness :
  get_word_level demo_analyzer "wetter" = Some "B1".
Proof.
  apply (stored_key_lookup (init_analyzer (fun _ => [])) demo_fs "vocabulary").
  - reflexivity.
  - vm_compute. reflexivity.
Defined.

(** Typed with capitals and blanks around it, "wetter" is still found. *)
Lemma word_lookup_finds_cells_witness :
  word_lookup demo_analyzer "  WETTER "
  = word_levels demo_analyzer !! strip (lower "  WETTER ")
  /\ is_Some (word_lookup demo_analyzer "  WETTER ").
Proof.
  apply (word_lookup_finds_cells (init_analyzer (fun _ => [])) demo_fs
           "vocabulary" "B1" "B1.csv" "  WETTER ").
  - apply (bool_decide_unpack _). vm_compute. exact I.
  - apply (bool_decide_unpack _). vm_compute. exact I.
  - vm_compute. discriminate.
Defined.

Lemma reconstruct_plain_words_witness :
  reconstruct ["Das"; "Haus"; "steht"] = "Das Haus steht".
Proof.
  apply (reconstruct_plain_words ["Das"; "Haus"; "steht"]).
  repeat constructor; discriminate.
Defined.

(** Nothing of the demo text is above C1: with a service whose calls would
    raise, the text comes back as it stands and nothing is sent. *)
Lemma nothing_above_needs_no_service_witness :
  create_leveled_text wetter_analyzer "Das außergewöhnliche Wetter." "C1"
    (Some failing_claude) (Some "Claude") empty_heap
  = ("Das außergewöhnliche Wetter.", empty_heap).
Proof.
  apply (nothing_above_needs_no_service wetter_analyzer
           "Das außergewöhnliche Wetter." "C1" (Some failing_claude)
           (Some "Claude") empty_heap).
  intros token Hin.
  repeat (apply elem_of_cons in Hin as [->|Hin]; [vm_compute; reflexivity|]).
  by apply elem_of_nil in Hin.
Defined.

Lemma translate_batch_keeps_cache_witness :
  translation_cache (translate_batch claude_service six_words "English" warm_heap).2
    !! "a_English_Claude" = Some "A".
Proof.
  apply (translate_batch_keeps_cache claude_service six_words "English" warm_heap).
  vm_compute. reflexivity.
Defined.

(** " Und " in the stopword file excludes a token with lemma "und". *)
Lemma listed_stopword_not_considered_witness :
  considered (load_stopwords wetter_analyzer demo_files "german_stopwords_plain.txt")
    (word_token "und" "und" "" 1) = false.
Proof.
  apply (listed_stopword_not_considered wetter_analyzer demo_files
           "german_stopwords_plain.txt" ["; a comment"; " Und "; ""] " Und " "B1"
           [] [] (word_token "und" "und" "" 1)).
  - reflexivity.
  - apply (bool_decide_unpack _). vm_compute. exact I.
  - vm_compute. discriminate.
  - vm_compute. reflexivity.
  - vm_compute. reflexivity.
Defined.

(** The one word the demo analysis reports above B1 is redacted. *)
Lemma reported_words_are_redacted_witness :
  exists token,
    token ∈ wetter_doc
    /\ word_info (word_token "außergewöhnliche" "außergewöhnlich" "" 1) = word_info token
    /\ get_word_level wetter_analyzer (effective_lemma token) = Some "C1"
    /\ leveled_token wetter_analyzer "B1" token = "[...]".
Proof.
  apply (reported_words_are_redacted wetter_analyzer wetter_doc "B1" "C1"
           (word_info (word_token "außergewöhnliche" "außergewöhnlich" "" 1))).
  vm_compute. apply list_elem_of_here.
Defined.

(** Three words and a reply of two lines: the first two words get their
    lines, the third gets nothing from the batch. *)
Lemma batch_reply_by_position_witness :
  (_batch_translate_with_ai two_lines_service two_lines_ai
     ["Haus"; "Baum"; "Berg"] "English" empty_heap).1 !! "Baum" = Some "tree"
  /\ (_batch_translate_with_ai two_lines_service two_lines_ai
        ["Haus"; "Baum"; "Berg"] "English" empty_heap).1 !! "Berg" = None.
Proof.
  split.
  - destruct (batch_reply_by_position two_lines_service two_lines_ai two_lines_client
                ["Haus"; "Baum"; "Berg"] "English"
                ("house" +:+ String "010"%char "tree") empty_heap 1 "Baum")
      as [Hline _].
    + left. split; reflexivity.
    + reflexivity.
    + apply (bool_decide_unpack _). vm_compute. exact I.
    + reflexivity.
    + exact Hline.
  - destruct (batch_reply_by_position two_lines_service two_lines_ai two_lines_client
                ["Haus"; "Baum"; "Berg"] "English"
                ("house" +:+ String "010"%char "tree") empty_heap 2 "Berg")
      as [Hline _].
    + left. split; reflexivity.
    + reflexivity.
    + apply (bool_decide_unpack _). vm_compute. exact I.
    + reflexivity.
    + exact Hline.
Defined.

(** Without a service "Haus" gets the mock translation for English. *)
Lemma translate_batch_offline_witness :
  (translate_batch offline_service ["Haus"] "English" empty_heap).2 = empty_heap
  /\ (translate_batch offline_service ["Haus"] "English" empty_heap).1 !! "Haus"
     = Some "Haus (EN)".
Proof.
  destruct (translate_batch_offline offline_service ["Haus"] "English" empty_heap)
    as [Hheap Hword].
  - reflexivity.
  - split; [exact Hheap|]. apply (Hword "Haus"). apply list_elem_of_here.
Defined.

Lemma create_word_lists_offline_witness :
  (create_word_lists wetter_analyzer (analyze_doc wetter_analyzer wetter_doc "B1")
     "English" None "None" empty_heap).2 = empty_heap
  /\ Forall (fun row => translation row = mock_translation (row_lemma row) "English")
       (create_word_lists wetter_analyzer (analyze_doc wetter_analyzer wetter_doc "B1")
          "English" None "None" empty_heap).1.
Proof.
  apply (create_word_lists_offline wetter_analyzer
           (analyze_doc wetter_analyzer wetter_doc "B1") "English" None "None"
           empty_heap).
  reflexivity.
Defined.

End FurtherRuns.
